(** * BGforge MLS language server: symbol index, diagnostics, position resolver

    A shallow embedding of the parts of the server that the specification
    makes claims about:

    - [common.ts]      : [symbolAtPosition], [onlyDigits];
    - [fallout-ssl.ts] : [find_symbols], [load_macros], [load_procedures],
                         [reload_data], [load_data], [parse_compile_output];
    - [server.ts]      : the [onCompletion] and [onHover] handlers.

    Modelling choices:

    - a JavaScript string is a [string]: a sequence of code units,
      restricted to the code units below 256;
    - a JavaScript number is [NaN], an integer of magnitude at most 2^53
      (the range in which doubles are exact) or a value that is not
      tracked;
    - an array is a [list]; a [Map] that the program reads through [get]
      only is a [gmap], which keeps the keys and values and not the order
      of insertion;
    - a regular expression literal is a term of type [regex], run by a
      backtracking matcher;
    - a function that can throw returns an [outcome]; the console is
      modelled where a property speaks of it, in [parse_compile_output];
    - functions of modules that are not part of these sources
      ([jsdoc.parse], [translation.isTraRef], [translation.getHover],
      [TextDocument.offsetAt]) are section variables. *)

From Stdlib Require Import ZArith Ascii String List Bool Lia Sorted.
From stdpp Require Import base option list gmap strings fin_maps.

Local Open Scope string_scope.
Local Open Scope list_scope.

(** ** Code units and character classes *)

Module CharClass.

Definition code (c : ascii) : N := N_of_ascii c.

Definition between (lo hi : N) (c : ascii) : bool :=
  ((lo <=? code c) && (code c <=? hi))%N.

(** [\d] *)
Definition digit (c : ascii) : bool := between 48 57 c.

Definition upper (c : ascii) : bool := between 65 90 c.

Definition lower (c : ascii) : bool := between 97 122 c.

(** [\w] is [[A-Za-z0-9_]] *)
Definition word (c : ascii) : bool :=
  upper c || lower c || digit c || (code c =? 95)%N.

(** [\W] *)
Definition nonword (c : ascii) : bool := negb (word c).

(** Line terminators below 256: LF and CR. *)
Definition line_terminator (c : ascii) : bool :=
  ((code c =? 10) || (code c =? 13))%N.

(** [\s]: TAB, LF, VT, FF, CR, space and the no-break space. *)
Definition space (c : ascii) : bool :=
  between 9 13 c || (code c =? 32)%N || (code c =? 160)%N.

(** [\S] *)
Definition nonspace (c : ascii) : bool := negb (space c).

(** [.] without the [s] flag *)
Definition dot (c : ascii) : bool := negb (line_terminator c).

(** a literal character *)
Definition lit (a : ascii) (c : ascii) : bool := Ascii.eqb a c.

(** [[^a]] *)
Definition notlit (a : ascii) (c : ascii) : bool := negb (Ascii.eqb a c).

(** [[ \t]] *)
Definition blank (c : ascii) : bool := ((code c =? 32) || (code c =? 9))%N.

(** [[A-Z0-9_]] *)
Definition upper_digit_underscore (c : ascii) : bool :=
  upper c || digit c || (code c =? 95)%N.

End CharClass.

(** ** A backtracking matcher for the regular expressions of the sources

    The matcher follows the continuation semantics of ECMA-262: a pattern is
    run against a state (position, captures) and a continuation; alternatives
    and greedy repetitions are tried in priority order and the first
    complete match wins. *)

Module Regex.

Inductive regex : Type :=
| Eps
| Chr (p : ascii -> bool)
| Seq (a b : regex)
| Alt (a b : regex)
| Star (a : regex)
| Group (n : nat) (a : regex)
| NotAhead (a : regex)
| Bol
| Eol.

(** [a+], [a?] and a literal string *)
Definition Plus (a : regex) : regex := Seq a (Star a).
Definition Opt (a : regex) : regex := Alt a Eps.

Fixpoint Str (s : string) : regex :=
  match s with
  | EmptyString => Eps
  | String c s' => Seq (Chr (CharClass.lit c)) (Str s')
  end.

Fixpoint Seqs (rs : list regex) : regex :=
  match rs with
  | [] => Eps
  | r :: rs' => Seq r (Seqs rs')
  end.

(** The state of a match in progress: index of the next code unit, the
    code units from there on, and the captures made so far. *)
Record mstate : Type := MState {
  pos : nat;
  rest : list ascii;
  caps : gmap nat string;
}.

Fixpoint groups_of (r : regex) : list nat :=
  match r with
  | Eps | Chr _ | Bol | Eol => []
  | Seq a b | Alt a b => groups_of a ++ groups_of b
  | Star a | NotAhead a => groups_of a
  | Group n a => n :: groups_of a
  end.

Definition clear (gs : list nat) (s : mstate) : mstate :=
  MState (pos s) (rest s) (foldr delete (caps s) gs).

Definition capture (n : nat) (from to : mstate) : mstate :=
  MState (pos to) (rest to)
    (<[n := string_of_list_ascii (take (pos to - pos from) (rest from))]> (caps to)).

Definition orelse {A} (x y : option A) : option A :=
  match x with Some r => Some r | None => y end.

(** Greedy repetition of [body], the matcher of the repeated pattern:
    each round first clears the groups [gs] of the pattern, a round that
    consumes nothing is refused, and when no round leads to a match the
    continuation is tried on the state reached so far.  At most one round
    per remaining code unit can succeed, which bounds the recursion by
    [n]. *)
Fixpoint star_loop (body : (mstate -> option mstate) -> mstate -> option mstate)
  (gs : list nat) (k : mstate -> option mstate) (n : nat) (s : mstate)
  {struct n} : option mstate :=
  match n with
  | O => k s
  | S n' =>
      orelse
        (body
           (fun s' => if decide (pos s' = pos s) then None
                      else star_loop body gs k n' s')
           (clear gs s))
        (k s)
  end.

Fixpoint run (r : regex) (k : mstate -> option mstate) (s : mstate)
  {struct r} : option mstate :=
  match r with
  | Eps => k s
  | Chr p =>
      match rest s with
      | c :: t => if p c then k (MState (S (pos s)) t (caps s)) else None
      | [] => None
      end
  | Seq a b => run a (run b k) s
  | Alt a b => orelse (run a k s) (run b k s)
  | Star a => star_loop (run a) (groups_of a) k (S (length (rest s))) s
  | Group n a => run a (fun s' => k (capture n s s')) s
  | NotAhead a =>
      match run a Some s with
      | Some _ => None
      | None => k s
      end
  | Bol => if decide (pos s = 0) then k s else None
  | Eol => match rest s with [] => k s | _ :: _ => None end
  end.

(** The result of a successful [exec]: [index], the end of the match (the
    new [lastIndex] of a global pattern) and the captured groups. *)
Record rmatch : Type := RMatch {
  index : nat;
  match_end : nat;
  groups : gmap nat string;
}.

Definition match_at (r : regex) (i : nat) (input : list ascii) : option rmatch :=
  match run r Some (MState i input ∅) with
  | Some s => Some (RMatch i (pos s) (caps s))
  | None => None
  end.

(** Try every start index from [i] on, leftmost first. *)
Fixpoint exec_from (r : regex) (i : nat) (input : list ascii) : option rmatch :=
  match match_at r i input with
  | Some mt => Some mt
  | None =>
      match input with
      | [] => None
      | _ :: t => exec_from r (S i) t
      end
  end.

(** [regex.exec(text)] with [regex.lastIndex = lastIndex]. *)
Definition exec (r : regex) (text : string) (lastIndex : nat) : option rmatch :=
  if decide (lastIndex <= String.length text)
  then exec_from r lastIndex (drop lastIndex (list_ascii_of_string text))
  else None.

(** [m[n]]: the capture of group [n], [None] when it did not take part. *)
Definition group (mt : rmatch) (n : nat) : option string := groups mt !! n.

(** The loop
    [while ((match = re.exec(text)) != null) { if (match.index === re.lastIndex) re.lastIndex++; ... }]
    of a global pattern, collecting the matches. *)
Fixpoint exec_loop (fuel : nat) (r : regex) (text : string) (lastIndex : nat)
  : list rmatch :=
  match fuel with
  | O => []
  | S fuel' =>
      match exec r text lastIndex with
      | None => []
      | Some mt =>
          let lastIndex' :=
            if decide (index mt = match_end mt) then S (match_end mt) else match_end mt in
          mt :: exec_loop fuel' r text lastIndex'
      end
  end.

Definition exec_all (r : regex) (text : string) : list rmatch :=
  exec_loop (String.length text + 2) r text 0.

(** [re.test(s)] for a pattern without the [g] flag. *)
Definition test (r : regex) (s : string) : bool :=
  bool_decide (is_Some (exec r s 0)).

(** [s.search(re)]: index of the first match, [-1] when there is none. *)
Definition search (r : regex) (s : string) : Z :=
  match exec r s 0 with
  | Some mt => Z.of_nat (index mt)
  | None => (-1)%Z
  end.

End Regex.

Import Regex.

(** ** JavaScript values and string primitives *)

Module JS.

(** A JavaScript number is a double.  Every integer of magnitude at most
    2^53 is a double, and an operation on such integers whose exact result
    stays in that range is exact: [Num z] is the double equal to the
    integer [z].  Beyond the range a result is rounded, and a digit string
    may be read approximately: [Inexact] stands for a number value that
    the model does not track.  The sign of zero is not tracked. *)
Inductive number : Type :=
| NaN
| Num (z : Z)
| Inexact.

(** 2^53 *)
Definition max_exact : Z := 9007199254740992.

(** The number value of the mathematical integer [z]. *)
Definition integer (z : Z) : number :=
  if (Z.abs z <=? max_exact)%Z then Num z else Inexact.

(** [a - b] *)
Definition sub (a b : number) : number :=
  match a, b with
  | NaN, _ => NaN
  | _, NaN => NaN
  | Num x, Num y => integer (x - y)
  | _, _ => Inexact
  end.

(** Errors raised by the runtime. *)
Inductive error : Type :=
| TypeError.

(** The outcome of running a function that may throw. *)
Inductive outcome (A : Type) : Type :=
| Ret (a : A)
| Throw (e : error).
Arguments Ret {A} a.
Arguments Throw {A} e.

(** Truthiness of a possibly undefined string: [if (x)]. *)
Definition truthy (x : option string) : bool :=
  match x with
  | Some s => negb (String.eqb s "")
  | None => false
  end.

(** Relative index of [String.prototype.slice]: negative counts from the
    end, everything is clamped to [0, len]. *)
Definition slice_index (len : nat) (i : Z) : nat :=
  if (i <? 0)%Z then Z.to_nat (Z.max (Z.of_nat len + i) 0)
  else Nat.min (Z.to_nat i) len.

(** [s.slice(start, stop)]; [stop = None] is [s.slice(start)]. *)
Definition slice (s : string) (start : Z) (stop : option Z) : string :=
  let len := String.length s in
  let from := slice_index len start in
  let to := match stop with Some e => slice_index len e | None => len end in
  String.substring from (to - from) s.

(** [text.split(/\r?\n/g)]: the pieces between the line breaks, a CR
    directly before an LF belonging to the break. *)
Fixpoint split_lines_from (cur : list ascii) (s : list ascii) : list string :=
  match s with
  | [] => [string_of_list_ascii (rev cur)]
  | c :: t =>
      if (CharClass.code c =? 10)%N
      then string_of_list_ascii (rev cur) :: split_lines_from [] t
      else
        match t with
        | c' :: t' =>
            if ((CharClass.code c =? 13) && (CharClass.code c' =? 10))%N
            then string_of_list_ascii (rev cur) :: split_lines_from [] t'
            else split_lines_from (c :: cur) t
        | [] => split_lines_from (c :: cur) t
        end
  end.

Definition split_lines (text : string) : list string :=
  split_lines_from [] (list_ascii_of_string text).

Fixpoint drop_while (p : ascii -> bool) (l : list ascii) : list ascii :=
  match l with
  | c :: t => if p c then drop_while p t else l
  | [] => []
  end.

(** [s.trimEnd()]: white space and line terminators are removed from
    the end. *)
Definition trimEnd (s : string) : string :=
  string_of_list_ascii
    (rev (drop_while CharClass.space (rev (list_ascii_of_string s)))).

(** [s.endsWith(c)] for a one-character [c]. *)
Definition endsWith (s : string) (c : ascii) : bool :=
  match rev (list_ascii_of_string s) with
  | c' :: _ => Ascii.eqb c' c
  | [] => false
  end.

(** [parts.join(sep)] *)
Fixpoint join (sep : string) (parts : list string) : string :=
  match parts with
  | [] => ""
  | [p] => p
  | p :: ps => p +:+ sep +:+ join sep ps
  end.

(** Value of a digit in radix 10 or 16, [None] for other code units. *)
Definition digit_value (radix : Z) (c : ascii) : option Z :=
  let n := Z.of_N (CharClass.code c) in
  let v :=
    if CharClass.digit c then Some (n - 48)%Z
    else if CharClass.between 97 102 c then Some (n - 87)%Z
    else if CharClass.between 65 70 c then Some (n - 55)%Z
    else None in
  match v with
  | Some d => if (d <? radix)%Z then Some d else None
  | None => None
  end.

(** The longest prefix of digits of [s], read in [radix] as a
    mathematical integer and then taken as a number; [NaN] when [s] does
    not start with a digit. *)
Fixpoint digits_prefix (radix : Z) (acc : option Z) (s : list ascii) : number :=
  match s with
  | c :: t =>
      match digit_value radix c with
      | Some d =>
          digits_prefix radix
            (Some (match acc with Some a => a * radix + d | None => d end)%Z) t
      | None => match acc with Some a => integer a | None => NaN end
      end
  | [] => match acc with Some a => integer a | None => NaN end
  end.

Definition negate (n : number) : number :=
  match n with
  | Num z => Num (- z)
  | NaN => NaN
  | Inexact => Inexact
  end.

Definition parse_radix (s : list ascii) : number :=
  match s with
  | z :: x :: t =>
      if Ascii.eqb z "0" && (Ascii.eqb x "x" || Ascii.eqb x "X")
      then digits_prefix 16 None t
      else digits_prefix 10 None s
  | _ => digits_prefix 10 None s
  end.

(** [parseInt(s)] without a radix argument: leading white space, an
    optional sign, an optional [0x] prefix, then the digits. *)
Definition parseInt (s : string) : number :=
  let l := drop_while CharClass.space (list_ascii_of_string s) in
  match l with
  | c :: t =>
      if Ascii.eqb c "-" then negate (parse_radix t)
      else if Ascii.eqb c "+" then parse_radix t
      else parse_radix l
  | [] => NaN
  end.

End JS.

Import JS.

(** ** common.ts *)

Module Common.

(** [Position] of the protocol: zero-based line and character. *)
Record Position : Type := mkPosition {
  line : nat;
  character : nat;
}.

(** [/^\d+$/] *)
Definition digits_only_regex : regex :=
  Seqs [Bol; Plus (Chr CharClass.digit); Eol].

(** [/\w+$/] *)
Definition word_tail_regex : regex :=
  Seqs [Plus (Chr CharClass.word); Eol].

(** [/\S+$/] *)
Definition nonspace_tail_regex : regex :=
  Seqs [Plus (Chr CharClass.nonspace); Eol].

(** [/\W/] *)
Definition nonword_regex : regex := Chr CharClass.nonword.

Definition onlyDigits (value : string) : bool :=
  test digits_only_regex value.

(** [symbolAtPosition]: [lines[position.line]] is undefined when the line
    does not exist, and slicing it throws. *)
Definition symbolAtPosition (text : string) (position : Position)
  : outcome string :=
  let lines := split_lines text in
  match lines !! line position with
  | None => Throw TypeError
  | Some str =>
      let pos := Z.of_nat (character position) in
      let left := search word_tail_regex (slice str 0 (Some (pos + 1)%Z)) in
      let right := search nonword_regex (slice str pos None) in
      let result :=
        if (right <? 0)%Z then slice str left None
        else slice str left (Some (right + pos)%Z) in
      if negb (onlyDigits result) then Ret result
      else if onlyDigits result then
        let left := search nonspace_tail_regex (slice str 0 (Some (pos + 1)%Z)) in
        let right := search nonword_regex (slice str pos None) in
        Ret (if (right <? 0)%Z then slice str left None
             else slice str left (Some (right + pos)%Z))
      else Ret result
  end.

End Common.

Import Common.

(** ** Protocol types, jsdoc.ts, completion.ts and hover.ts

    Only the types of these modules are used by the functions below. *)

Inductive MarkupKind : Type :=
| PlainText
| Markdown.

Record MarkupContent : Type := mkMarkup {
  markup_kind : MarkupKind;
  value : string;
}.

Inductive CompletionItemKind : Type :=
| Text | Method | Function | Constructor | Field | Variable_ | Class
| Interface | Module_ | Property | Unit | Value | Enum | Keyword | Snippet
| Color | File | Reference | Folder | EnumMember | Constant | Struct
| Event | Operator | TypeParameter.

Module Jsdoc.

(** The parsed doc comment [jsdoc.JSdoc], with the fields that
    [jsdocToMD] and [jsdocToDetail] read. *)
Record JSdocArg : Type := mkArg {
  arg_name : string;
  arg_type : string;
}.

Record JSdocRet : Type := mkRet {
  ret_type : string;
}.

Record JSdoc : Type := mkJSdoc {
  desc : option string;
  args : list JSdocArg;
  ret : option JSdocRet;
}.

End Jsdoc.

Module Completion.

(** [CompletionItemEx]: a completion item with the file it comes from. *)
Record CompletionItemEx : Type := mkItem {
  label : string;
  documentation : MarkupContent;
  source : string;
  kind : CompletionItemKind;
  labelDetails : option string;
}.

(** [selfData], [staticData], [dynamicData]: the three tiers of
    completion lists, keyed by path (self) or language id. *)
Record Data : Type := mkData {
  selfData : gmap string (list CompletionItemEx);
  staticData : gmap string (list CompletionItemEx);
  dynamicData : gmap string (list CompletionItemEx);
}.

End Completion.

Module Hover.

(** [HoverEx]: a hover with the file it comes from. *)
Record HoverEx : Type := mkHover {
  contents : MarkupContent;
  source : string;
}.

(** The three tiers of hover maps. *)
Record Data : Type := mkData {
  selfData : gmap string (gmap string HoverEx);
  staticData : gmap string (gmap string HoverEx);
  dynamicData : gmap string (gmap string HoverEx);
}.

End Hover.

(** ** fallout-ssl.ts *)

Module FalloutSSL.

Import Jsdoc.
Export Completion(CompletionItemEx, mkItem).
Export Hover(HoverEx, mkHover).

Record ProcListItem : Type := mkProc {
  proc_label : string;
  proc_detail : string;
  proc_jsdoc : option JSdoc;
}.

Record DefineListItem : Type := mkDefine {
  def_label : string;
  def_detail : string;
  def_constant : bool;
  def_multiline : bool;
  def_firstline : string;
  def_jsdoc : option JSdoc;
}.

Record HeaderDataList : Type := mkHeaderData {
  macros : list DefineListItem;
  procedures : list ProcListItem;
}.

(** [DynamicData] of common.ts *)
Record DynamicData : Type := mkDynamicData {
  completion : list CompletionItemEx;
  hover : gmap string HoverEx;
}.

(** [ParseItem] as [parse_compile_output] builds it. *)
Record ParseItem : Type := mkParseItem {
  file : string;
  line : number;
  column_start : number;
  column_end : number;
  message : string;
}.

Record ParseResult : Type := mkParseResult {
  errors : list ParseItem;
  warnings : list ParseItem;
}.

Definition lang_id : string := "fallout-ssl".

Definition LF : ascii := "010"%char.
Definition CR : ascii := "013"%char.

(** [((\/\*\*\s*\n([^*]|(\*(?!\/)))*\*\/)\r?\n)?] *)
Definition jsdoc_prefix : regex :=
  Opt (Group 1 (Seqs [
    Group 2 (Seqs [
      Str "/**"; Star (Chr CharClass.space); Chr (CharClass.lit LF);
      Star (Group 3 (Alt (Chr (CharClass.notlit "*"))
                         (Group 4 (Seq (Chr (CharClass.lit "*"))
                                       (NotAhead (Chr (CharClass.lit "/")))))));
      Str "*/"]);
    Opt (Chr (CharClass.lit CR)); Chr (CharClass.lit LF)])).

(** [(?:\(([^)]+)\))?] *)
Definition params_opt : regex :=
  Opt (Seqs [Chr (CharClass.lit "("); Group 6 (Plus (Chr (CharClass.notlit ")")));
             Chr (CharClass.lit ")")]).

(** [/((\/\*\*\s*\n([^*]|(\*(?!\/)))*\*\/)\r?\n)?#define[ \t]+(\w+)(?:\(([^)]+)\))?[ \t]+(.+)/gm] *)
Definition define_regex : regex :=
  Seqs [jsdoc_prefix; Str "#define"; Plus (Chr CharClass.blank);
        Group 5 (Plus (Chr CharClass.word)); params_opt;
        Plus (Chr CharClass.blank); Group 7 (Plus (Chr CharClass.dot))].

(** [/^[A-Z0-9_]+/] *)
Definition constant_regex : regex :=
  Seqs [Bol; Plus (Chr CharClass.upper_digit_underscore)].

(** [/((\/\*\*\s*\n([^*]|(\*(?!\/)))*\*\/)\r?\n)?procedure[\s]+(\w+)(?:\(([^)]+)\))?[\s]+begin/gm] *)
Definition proc_regex : regex :=
  Seqs [jsdoc_prefix; Str "procedure"; Plus (Chr CharClass.space);
        Group 5 (Plus (Chr CharClass.word)); params_opt;
        Plus (Chr CharClass.space); Str "begin"].

(** The patterns of [parse_compile_output]: the tag in brackets, a
    space, the file between angle brackets (group 1, one or more [.]), a
    colon, the line (group 2, any number of digits), a colon, the column
    (group 3, any number of digits), an optional colon, a space and the
    message (group 4, any number of [.]). *)
Definition diagnostic_pattern (tag : string) : regex :=
  Seqs [Str tag; Str " <"; Group 1 (Plus (Chr CharClass.dot)); Str ">:";
        Group 2 (Star (Chr CharClass.digit)); Chr (CharClass.lit ":");
        Group 3 (Star (Chr CharClass.digit)); Opt (Chr (CharClass.lit ":"));
        Chr (CharClass.lit " "); Group 4 (Star (Chr CharClass.dot))].

Definition errors_pattern : regex := diagnostic_pattern "[Error]".
Definition warnings_pattern : regex := diagnostic_pattern "[Warning]".

(** A group that takes part in every match, read as a string. *)
Definition group_str (mt : rmatch) (n : nat) : string :=
  default "" (group mt n).

Definition nl : string := String LF "".

Definition jsdocToMD (jsd : JSdoc) : string :=
  let md := nl +:+ "---" +:+ nl in
  let md :=
    if truthy (desc jsd) then md +:+ nl +:+ default "" (desc jsd) else md in
  let md :=
    foldl (fun md arg => md +:+ nl +:+ "- `" +:+ arg_type arg +:+ "` " +:+ arg_name arg)
      md (args jsd) in
  match ret jsd with
  | Some r => md +:+ nl +:+ nl +:+ " Returns `" +:+ ret_type r +:+ "`"
  | None => md
  end.

Definition jsdocToDetail (label : string) (jsd : JSdoc) : string :=
  let type := match ret jsd with Some r => ret_type r | None => "void" end in
  let args := map (fun a => arg_type a +:+ " " +:+ arg_name a) (args jsd) in
  let args_string := join ", " args in
  type +:+ " " +:+ label +:+ "(" +:+ args_string +:+ ")".

Section Extractor.

(** [jsdoc.parse] of jsdoc.ts *)
Variable jsdoc_parse : string -> JSdoc.

(** The body of the first loop of [find_symbols], for one match. *)
Definition define_item (mt : rmatch) : DefineListItem :=
  let define_name := group_str mt 5 in
  let define_firstline := trimEnd (group_str mt 7) in
  let multiline := endsWith define_firstline "\"%char in
  let define_detail :=
    if truthy (group mt 6)
    then define_name +:+ "(" +:+ group_str mt 6 +:+ ")"
    else define_name in
  let constant := negb multiline && test constant_regex define_name in
  if truthy (group mt 2) then
    let jsd := jsdoc_parse (group_str mt 2) in
    mkDefine define_name (jsdocToDetail define_name jsd) constant multiline
      define_firstline (Some jsd)
  else
    mkDefine define_name define_detail constant multiline define_firstline None.

(** The body of the second loop of [find_symbols], for one match. *)
Definition proc_item (mt : rmatch) : ProcListItem :=
  let proc_name := group_str mt 5 in
  let proc_detail :=
    if truthy (group mt 6)
    then "procedure " +:+ proc_name +:+ "(" +:+ group_str mt 6 +:+ ")"
    else "procedure " +:+ proc_name +:+ "()" in
  if truthy (group mt 2) then
    let jsd := jsdoc_parse (group_str mt 2) in
    mkProc proc_name (jsdocToDetail proc_name jsd) (Some jsd)
  else
    mkProc proc_name proc_detail None.

Definition find_symbols (text : string) : HeaderDataList :=
  let define_list := map define_item (exec_all define_regex text) in
  let proc_list := map proc_item (exec_all proc_regex text) in
  mkHeaderData define_list proc_list.

Definition markdown_block (detail path : string) : string :=
  join nl ["```" +:+ lang_id; detail; "```";
           nl +:+ "```bgforge-mls-comment" +:+ nl; path; "```"].

(** The markdown of a procedure, its completion item and its hover
    item, as the body of the loop of [load_procedures] builds them. *)
Definition proc_contents (path : string) (proc : ProcListItem) : MarkupContent :=
  let markdown_value := markdown_block (proc_detail proc) path in
  let markdown_value :=
    match proc_jsdoc proc with
    | Some jsd => markdown_value +:+ jsdocToMD jsd
    | None => markdown_value
    end in
  mkMarkup Markdown markdown_value.

Definition proc_completion_item (path : string) (proc : ProcListItem)
  : CompletionItemEx :=
  mkItem (proc_label proc) (proc_contents path proc) path Function None.

Definition proc_hover_item (path : string) (proc : ProcListItem) : HoverEx :=
  mkHover (proc_contents path proc) path.

(** One iteration of the loop of [load_procedures]: a push on the
    completion list and a [set] on the hover map. *)
Definition load_procedure (path : string)
  (acc : list CompletionItemEx * gmap string HoverEx) (proc : ProcListItem)
  : list CompletionItemEx * gmap string HoverEx :=
  (acc.1 ++ [proc_completion_item path proc],
   <[proc_label proc := proc_hover_item path proc]> acc.2).

Definition load_procedures (path : string) (header_data : HeaderDataList)
  (completion_list : list CompletionItemEx) (hover_map : gmap string HoverEx)
  : list CompletionItemEx * gmap string HoverEx :=
  foldl (load_procedure path) (completion_list, hover_map)
    (procedures header_data).

(** The same for a macro and the loop of [load_macros]. *)
Definition macro_contents (path : string) (macro : DefineListItem) : MarkupContent :=
  let detail :=
    if def_constant macro then def_firstline macro else def_detail macro in
  let markdown_value := markdown_block detail path in
  let markdown_value :=
    if negb (def_multiline macro) && negb (def_constant macro)
    then markdown_value +:+
         join nl [nl +:+ "```" +:+ lang_id; def_firstline macro; "```"]
    else markdown_value in
  mkMarkup Markdown markdown_value.

Definition macro_completion_item (path : string) (macro : DefineListItem)
  : CompletionItemEx :=
  let completion_kind := if def_constant macro then Constant else Field in
  mkItem (def_label macro) (macro_contents path macro) path completion_kind
    (Some path).

Definition macro_hover_item (path : string) (macro : DefineListItem) : HoverEx :=
  mkHover (macro_contents path macro) path.

Definition load_macro (path : string)
  (acc : list CompletionItemEx * gmap string HoverEx) (macro : DefineListItem)
  : list CompletionItemEx * gmap string HoverEx :=
  (acc.1 ++ [macro_completion_item path macro],
   <[def_label macro := macro_hover_item path macro]> acc.2).

Definition load_macros (path : string) (header_data : HeaderDataList)
  (completion_list : list CompletionItemEx) (hover_map : gmap string HoverEx)
  : list CompletionItemEx * gmap string HoverEx :=
  foldl (load_macro path) (completion_list, hover_map) (macros header_data).

Definition reload_data (path text : string)
  (completion : option (list CompletionItemEx))
  (hover : option (gmap string HoverEx)) : DynamicData :=
  let symbols := find_symbols text in
  let completion := match completion with Some c => c | None => [] end in
  let new_completion :=
    filter (fun item => Completion.source item ≠ path) completion in
  let hover := match hover with Some h => h | None => ∅ end in
  let new_hover :=
    filter (fun kv => Hover.source kv.2 ≠ path) hover in
  let '(new_completion, new_hover) :=
    load_macros path symbols new_completion new_hover in
  let '(new_completion, new_hover) :=
    load_procedures path symbols new_completion new_hover in
  mkDynamicData new_completion new_hover.

(** [load_data]: [headers] lists, in the order of [find_files], each
    header path below the directory with the text read from it. *)
Definition load_header
  (acc : list CompletionItemEx * gmap string HoverEx)
  (header : string * string) : list CompletionItemEx * gmap string HoverEx :=
  let '(header_path, text) := header in
  let header_data := find_symbols text in
  let '(completion_list, hover_map) :=
    load_macros header_path header_data acc.1 acc.2 in
  load_procedures header_path header_data completion_list hover_map.

Definition load_data (headers : list (string * string)) : DynamicData :=
  let '(completion_list, hover_map) := foldl load_header ([], ∅) headers in
  mkDynamicData completion_list hover_map.

End Extractor.

Section Diagnostics.

(** [TextDocument] of the protocol library and its method
    [offsetAt({ line, character })], which returns a number. *)
Variable TextDocument : Type.
Variable offsetAt : TextDocument -> number -> number -> number.

(** The item pushed by the first loop of [parse_compile_output]. *)
Definition error_item (mt : rmatch) : ParseItem :=
  let col :=
    if String.eqb (group_str mt 3) "" then "1" else group_str mt 3 in
  mkParseItem (group_str mt 1) (parseInt (group_str mt 2)) (Num 0)
    (sub (parseInt col) (Num 1)) (group_str mt 4).

(** The body of the second loop: [text_document.offsetAt] throws when
    [documents.get(uri)] was undefined. *)
Definition warning_item (text_document : option TextDocument) (mt : rmatch)
  : outcome ParseItem :=
  let col :=
    if String.eqb (group_str mt 3) "" then "0" else group_str mt 3 in
  let line := parseInt (group_str mt 2) in
  match text_document with
  | None => Throw TypeError
  | Some doc =>
      let column_end := sub (offsetAt doc line (Num 0)) (Num 1) in
      Ret (mkParseItem (group_str mt 1) line (parseInt col) column_end
             (group_str mt 4))
  end.

(** A [while] loop over the matches that pushes onto an array declared
    outside the [try]: when an iteration throws, the loop is left and
    the array keeps what was pushed before. *)
Fixpoint push_until_throw (step : rmatch -> outcome ParseItem)
  (ms : list rmatch) (acc : list ParseItem) : list ParseItem * option error :=
  match ms with
  | [] => (acc, None)
  | mt :: ms' =>
      match step mt with
      | Ret item => push_until_throw step ms' (acc ++ [item])
      | Throw e => (acc, Some e)
      end
  end.

(** [parse_compile_output]: the result and what [conlog] was called
    with in the [catch] clause. *)
Definition parse_compile_output (documents : gmap string TextDocument)
  (text uri : string) : ParseResult * list error :=
  let text_document := documents !! uri in
  let '(errors, thrown) :=
    push_until_throw (fun mt => Ret (error_item mt))
      (exec_all errors_pattern text) [] in
  match thrown with
  | Some err => (mkParseResult errors [], [err])
  | None =>
      let '(warnings, thrown) :=
        push_until_throw (warning_item text_document)
          (exec_all warnings_pattern text) [] in
      (mkParseResult errors warnings,
       match thrown with Some err => [err] | None => [] end)
  end.

End Diagnostics.

End FalloutSSL.

Import FalloutSSL.

(** ** server.ts *)

Module Server.

(** [Hover] of the protocol, as [translation.getHover] returns it. *)
Record PlainHover : Type := mkPlainHover {
  hover_contents : MarkupContent;
}.

(** The handler returns [Hover | hover.HoverEx]. *)
Inductive HoverResult : Type :=
| TierHover (h : HoverEx)
| TranslationHover (h : PlainHover).

(** [onCompletion], from the language id and relative path of the
    document on: spreading an undefined list throws. *)
Definition onCompletion (data : Completion.Data) (langId relPath : string)
  : outcome (list CompletionItemEx) :=
  let selfList := default [] (Completion.selfData data !! relPath) in
  let staticList := Completion.staticData data !! langId in
  let dynamicList := default [] (Completion.dynamicData data !! langId) in
  match staticList with
  | Some staticList => Ret (selfList ++ staticList ++ dynamicList)
  | None => Throw TypeError
  end.

(** The three [get]s at the end of [onHover] ("faster to check each map
    than join them"). *)
Definition lookup_tiers (selfMap staticMap dynamicMap : option (gmap string HoverEx))
  (word : string) : option HoverEx :=
  let from_self :=
    match selfMap with Some m => m !! word | None => None end in
  match from_self with
  | Some result => Some result
  | None =>
      let from_static :=
        match staticMap with Some m => m !! word | None => None end in
      match from_static with
      | Some result => Some result
      | None =>
          match dynamicMap with
          | Some m => m !! word
          | None => None
          end
      end
  end.

Section Handlers.

(** [translation.isTraRef(word, langId)] and
    [translation.getHover(word, text, settings, relPath, langId)] of
    translation.ts. *)
Variable isTraRef : string -> string -> bool.
Variable getTraHover : string -> string -> string -> string -> option PlainHover.

(** [onHover], from the language id, relative path and text of the
    document on.  The word under the cursor is found by
    [symbolAtPosition]. *)
Definition onHover (data : Hover.Data) (langId relPath text : string)
  (position : Position) : outcome (option HoverResult) :=
  let staticMap := Hover.staticData data !! langId in
  let dynamicMap := Hover.dynamicData data !! langId in
  let selfMap := Hover.selfData data !! relPath in
  if bool_decide (staticMap = None ∧ dynamicMap = None ∧ selfMap = None)
  then Ret None
  else
    match symbolAtPosition text position with
    | Throw e => Throw e
    | Ret word =>
        if String.eqb word "" then Ret None
        else if isTraRef word langId then
          Ret (TranslationHover <$> getTraHover word text relPath langId)
        else
          Ret (TierHover <$> lookup_tiers selfMap staticMap dynamicMap word)
    end.

End Handlers.

End Server.

Import Server.


(** ** common.ts: diagnostics sent to the client, header test *)

Module CommonDiagnostics.

(** [ParseItem] and [ParseResult] as common.ts declares them. *)
Record ParseItem : Type := mkParseItem {
  file : string;
  line : number;
  columnStart : number;
  columnEnd : number;
  message : string;
}.

Record ParseResult : Type := mkParseResult {
  errors : list ParseItem;
  warnings : list ParseItem;
}.









Section Files.

(** [path.extname] of the runtime library. *)
Variable extname : string -> string.

Definition isHeader (filePath langId : string) : bool :=
  String.eqb (extname filePath) "h" && String.eqb langId "fallout-ssl".

End Files.

End CommonDiagnostics.

(** ** definition.ts *)

Module DefinitionTs.

(** Intermediate result from parsing. *)
Record DefinitionItem : Type := mkDefinitionItem {
  name : string;
  line : number;
  start : number;
  end_ : number;
}.

Record LocPosition : Type := mkLocPosition {
  loc_line : number;
  loc_character : number;
}.

Record LocRange : Type := mkLocRange {
  range_start : LocPosition;
  range_end : LocPosition;
}.

(** [Location] of the protocol. *)
Record Location : Type := mkLocation {
  uri : string;
  range : LocRange;
}.

(** The location built by the body of the loop of [load]. *)
Definition to_location (uri : string) (def : DefinitionItem) : Location :=
  let range :=
    mkLocRange (mkLocPosition (line def) (start def))
               (mkLocPosition (line def) (end_ def)) in
  mkLocation uri range.

(** [load]: take the parse result list and turn it into a definition
    map. *)
Definition load (uri : string) (data : list DefinitionItem) : gmap string Location :=
  foldl (fun definitions def => <[name def := to_location uri def]> definitions)
    ∅ data.

End DefinitionTs.

(** ** fallout-ssl.ts: headers from outside the workspace *)

Module FalloutExternal.

(** [load_external_headers].  [is_directory] and [is_subpath] are the
    outcomes of the two file system tests, [headers] what [load_data]
    finds and reads below the headers directory.  The function is
    asynchronous: [Throw] stands for a rejected promise.  The result is
    the state of the static tier of completion and of hover. *)
Definition load_external_headers (jsdoc_parse : string -> Jsdoc.JSdoc)
  (is_directory is_subpath : outcome bool) (headers : list (string * string))
  (completionData : Completion.Data) (hoverData : Hover.Data)
  : outcome (Completion.Data * Hover.Data) :=
  match is_directory with
  | Throw _ => Ret (completionData, hoverData)
  | Ret false => Ret (completionData, hoverData)
  | Ret true =>
      match is_subpath with
      | Throw e => Throw e
      | Ret true => Ret (completionData, hoverData)
      | Ret false =>
          let fallout_header_data := load_data jsdoc_parse headers in
          let old_completion := Completion.staticData completionData !! lang_id in
          let old_hover := Hover.staticData hoverData !! lang_id in
          match old_completion with
          | None => Throw TypeError
          | Some old_completion =>
              let new_completion :=
                old_completion ++ completion fallout_header_data in
              match old_hover with
              | None => Throw TypeError
              | Some old_hover =>
                  let new_hover := hover fallout_header_data ∪ old_hover in
                  Ret (Completion.mkData
                         (Completion.selfData completionData)
                         (<[lang_id := new_completion]>
                            (Completion.staticData completionData))
                         (Completion.dynamicData completionData),
                       Hover.mkData
                         (Hover.selfData hoverData)
                         (<[lang_id := new_hover]> (Hover.staticData hoverData))
                         (Hover.dynamicData hoverData))
              end
          end
      end
  end.

End FalloutExternal.

(** ** server.ts: data language, reload of a document *)

Module ServerReload.

(** For language KEY, hovers and completions are searched in VALUE map. *)
Definition lang_data_map : gmap string string :=
  list_to_map [
    ("weidu-tp2", "weidu-tp2");
    ("weidu-tp2-tpl", "weidu-tp2");
    ("weidu-d", "weidu-d");
    ("weidu-d-tpl", "weidu-d");
    ("weidu-baf", "weidu-baf");
    ("weidu-baf-tpl", "weidu-baf");
    ("weidu-ssl", "weidu-baf");
    ("weidu-slb", "weidu-baf");
    ("fallout-ssl", "fallout-ssl");
    ("fallout-ssl-hover", "fallout-ssl")].

Definition getDataLang (lang_id : string) : string :=
  match lang_data_map !! lang_id with
  | Some data_lang => if String.eqb data_lang "" then "c++" else data_lang
  | None => "c++"
  end.

Section Reload.

Variable jsdoc_parse : string -> Jsdoc.JSdoc.

(** [path.extname], and [weidu.reloadData] of weidu.ts. *)
Variable extname : string -> string.
Variable weidu_reloadData :
  string -> string -> option (list CompletionItemEx) ->
  option (gmap string HoverEx) -> DynamicData.

(** [reloadSelfData], from the language id, the path relative to the
    workspace and the text of the document on; the state is the pair of
    the completion tiers and the hover tiers.  The hover map is set
    first, then the completion list. *)
Definition reloadSelfData (completionData : Completion.Data)
  (hoverData : Hover.Data) (langId relPath text : string)
  : Completion.Data * Hover.Data :=
  if String.eqb langId "fallout-ssl" then
    if CommonDiagnostics.isHeader extname relPath langId then
      let oldCompletion := Completion.dynamicData completionData !! langId in
      let oldHover := Hover.dynamicData hoverData !! langId in
      let newData := reload_data jsdoc_parse relPath text oldCompletion oldHover in
      (Completion.mkData (Completion.selfData completionData)
         (Completion.staticData completionData)
         (<[langId := completion newData]> (Completion.dynamicData completionData)),
       Hover.mkData (Hover.selfData hoverData) (Hover.staticData hoverData)
         (<[langId := hover newData]> (Hover.dynamicData hoverData)))
    else
      let oldCompletion := Completion.selfData completionData !! relPath in
      let oldHover := Hover.selfData hoverData !! relPath in
      let newData := reload_data jsdoc_parse relPath text oldCompletion oldHover in
      (Completion.mkData
         (<[relPath := completion newData]> (Completion.selfData completionData))
         (Completion.staticData completionData)
         (Completion.dynamicData completionData),
       Hover.mkData
         (<[relPath := hover newData]> (Hover.selfData hoverData))
         (Hover.staticData hoverData) (Hover.dynamicData hoverData))
  else if String.eqb langId "weidu-tp2" then
    let oldCompletion := Completion.dynamicData completionData !! langId in
    let oldHover := Hover.dynamicData hoverData !! langId in
    let newData := weidu_reloadData relPath text oldCompletion oldHover in
    (Completion.mkData (Completion.selfData completionData)
       (Completion.staticData completionData)
       (<[langId := completion newData]> (Completion.dynamicData completionData)),
     Hover.mkData (Hover.selfData hoverData) (Hover.staticData hoverData)
       (<[langId := hover newData]> (Hover.dynamicData hoverData)))
  else (completionData, hoverData).

End Reload.

End ServerReload.

(** * Vocabulary of the properties *)

(** ** What a run of the matcher has matched *)

(** [den r s s']: the pattern [r] can take the state [s] to [s']. *)
Fixpoint den (r : regex) (s s' : mstate) : Prop :=
  match r with
  | Eps => s' = s
  | Chr p =>
      exists c t, rest s = c :: t /\ p c = true /\ s' = MState (S (pos s)) t (caps s)
  | Seq a b => exists s1, den a s s1 /\ den b s1 s'
  | Alt a b => den a s s' \/ den b s s'
  | Star a =>
      rtc (fun x y => den a (clear (groups_of a) x) y /\ pos y <> pos x) s s'
  | Group n a => exists s1, den a s s1 /\ s' = capture n s s1
  | NotAhead a => run a Some s = None /\ s' = s
  | Bol => pos s = 0 /\ s' = s
  | Eol => rest s = [] /\ s' = s
  end.

(** A run only moves forward, over the code units it was given. *)
Definition advances (s s' : mstate) : Prop :=
  pos s <= pos s' /\ rest s' = drop (pos s' - pos s) (rest s) /\
  pos s' - pos s <= length (rest s).

(** The code units between two states of a run. *)
Definition consumed (s s' : mstate) : list ascii :=
  take (pos s' - pos s) (rest s).

(** [mt] is a match of [r] in [input], whose first code unit has index
    [base]. *)
Definition is_match (r : regex) (base : nat) (input : list ascii) (mt : rmatch)
  : Prop :=
  base <= index mt /\ index mt <= match_end mt /\ match_end mt <= base + length input /\
  exists s',
    den r (MState (index mt) (drop (index mt - base) input) ∅) s' /\
    match_end mt = pos s' /\ groups mt = caps s'.

(** The continuation that accepts at the end of the input only. *)
Definition at_end (s : mstate) : option mstate :=
  match rest s with [] => Some s | _ :: _ => None end.

(** Index at which the longest suffix made of code units of the class
    [p] starts; there is none when the last code unit is not in [p]. *)
Fixpoint tail_start (p : ascii -> bool) (l : list ascii) : option nat :=
  match l with
  | [] => None
  | _ :: t => if forallb p l then Some 0 else S <$> tail_start p t
  end.

(** ** Strings *)

Definition all_chars (p : ascii -> bool) (s : string) : Prop :=
  Forall (fun c => p c = true) (list_ascii_of_string s).

Definition all_digits (s : string) : Prop := all_chars CharClass.digit s.

Definition last_char (s : string) : option ascii := last (list_ascii_of_string s).

Definition first_char (s : string) : option ascii := head (list_ascii_of_string s).

(** The value of a string of decimal digits. *)
Definition decimal (l : list ascii) : Z :=
  fold_left (fun a c => (a * 10 + (Z.of_N (CharClass.code c) - 48))%Z) l 0%Z.

(** ** Buckets *)

(** The bucket of one tier, read at [word]; absent when the bucket or the
    word is missing. *)
Definition tier_get (bucket : option (gmap string HoverEx)) (word : string)
  : option HoverEx :=
  bucket ≫= (fun m => m !! word).

(** [set] for each pair in turn, as the loops of the loaders do. *)
Definition set_all (hover_map : gmap string HoverEx) (kvs : list (string * HoverEx))
  : gmap string HoverEx :=
  foldl (fun m kv => <[kv.1 := kv.2]> m) hover_map kvs.

(** What [load_macros] followed by [load_procedures] pushes for the
    symbols [hd] of the file [path]. *)
Definition fresh_completion (path : string) (hd : HeaderDataList)
  : list CompletionItemEx :=
  map (macro_completion_item path) (macros hd) ++
  map (proc_completion_item path) (procedures hd).

Definition fresh_hover (path : string) (hd : HeaderDataList)
  : list (string * HoverEx) :=
  map (fun macro => (def_label macro, macro_hover_item path macro)) (macros hd) ++
  map (fun proc => (proc_label proc, proc_hover_item path proc)) (procedures hd).

(** The names declared in [hd]. *)
Definition labels (hd : HeaderDataList) : list string :=
  map def_label (macros hd) ++ map proc_label (procedures hd).

(** Everything [load_data] pushes, header by header. *)
Definition loaded_completion (jsdoc_parse : string -> Jsdoc.JSdoc)
  (headers : list (string * string)) : list CompletionItemEx :=
  concat (map (fun h => fresh_completion h.1 (find_symbols jsdoc_parse h.2)) headers).

Definition loaded_hover (jsdoc_parse : string -> Jsdoc.JSdoc)
  (headers : list (string * string)) : list (string * HoverEx) :=
  concat (map (fun h => fresh_hover h.1 (find_symbols jsdoc_parse h.2)) headers).

(** ** Diagnostics with a handler per line

    Not the code: the reading of the specification under which every
    matched line is processed under a handler of its own, so that a line
    that throws is logged and skipped and the loop goes on with the next
    match.  It is compared with [parse_compile_output] below. *)

Fixpoint push_each_guarded (step : rmatch -> outcome ParseItem)
  (ms : list rmatch) : list ParseItem * list error :=
  match ms with
  | [] => ([], [])
  | mt :: ms' =>
      let '(items, log) := push_each_guarded step ms' in
      match step mt with
      | Ret item => (item :: items, log)
      | Throw e => (items, e :: log)
      end
  end.

Definition parse_compile_output_per_line (TextDocument : Type)
  (offsetAt : TextDocument -> number -> number -> number)
  (documents : gmap string TextDocument) (text uri : string)
  : ParseResult * list error :=
  let text_document := documents !! uri in
  let '(errors, log1) :=
    push_each_guarded (fun mt => Ret (error_item mt))
      (exec_all errors_pattern text) in
  let '(warnings, log2) :=
    push_each_guarded (warning_item TextDocument offsetAt text_document)
      (exec_all warnings_pattern text) in
  (mkParseResult errors warnings, log1 ++ log2).

(** ** Sample inputs *)

(** A doc-comment parser for the examples: the block becomes the
    description. *)
Definition describe_only (block : string) : Jsdoc.JSdoc :=
  Jsdoc.mkJSdoc (Some block) [] None.

Definition sample_contents (s : string) : MarkupContent := mkMarkup Markdown s.

(** The name [FOO] is known to all three tiers. *)
Definition sample_hover_data : Hover.Data :=
  Hover.mkData
    {[ "a.ssl" := {[ "FOO" := mkHover (sample_contents "self") "a.ssl" ]} ]}
    {[ "fallout-ssl" := {[ "FOO" := mkHover (sample_contents "static") "sfall.h" ]} ]}
    {[ "fallout-ssl" := {[ "FOO" := mkHover (sample_contents "dynamic") "define.h" ]} ]}.

(** Static and dynamic completion exist for [weidu-tp2] only. *)
Definition sample_completion_data : Completion.Data :=
  Completion.mkData
    {[ "lib.tpa" := [] ]}
    {[ "weidu-tp2" := [] ]}
    {[ "weidu-tp2" := [] ]}.

Definition sample_start_hover : HoverEx :=
  proc_hover_item "a.ssl" (mkProc "start" "procedure start()" None).

Definition sample_headers : list (string * string) :=
  [("define.h", "#define MAX_HP 100"); ("lib/misc.h", "procedure heal begin end")].

Definition sample_heal_hover : HoverEx :=
  proc_hover_item "lib/misc.h" (mkProc "heal" "procedure heal()" None).

(** A dynamic hover map in which [FOO] comes from the header b.h. *)
Definition sample_foreign_hover : HoverEx :=
  mkHover (sample_contents "FOO of b.h") "b.h".

Definition sample_dynamic_hover : gmap string HoverEx :=
  {[ "FOO" := sample_foreign_hover ]}.

Definition sample_error_line : string := "[Error] <Sem> <f>:10:: msg".

Definition sample_error_match : rmatch :=
  RMatch 0 26 {[ 1 := "Sem> <f"; 2 := "10"; 3 := ""; 4 := "msg" ]}.

Definition sample_two_warnings : string :=
  "[Warning] <a.ssl>:3:1: first" +:+ nl +:+ "[Warning] <a.ssl>:7:2: second".

(** A document store without documents needs no offsets. *)
Definition no_offset (doc : unit) (line character : number) : number := Num 0.

Definition sample_reference_line : string := "NOption(154,Node003,004".

(** ** Order of the matches of a global pattern *)


(** ** Sample inputs for definition.ts and the reload of a document *)

(** [start] is defined twice, the second time on line 12. *)
Definition sample_definitions : list DefinitionTs.DefinitionItem :=
  [DefinitionTs.mkDefinitionItem "start" (Num 3) (Num 10) (Num 15);
   DefinitionTs.mkDefinitionItem "heal" (Num 7) (Num 10) (Num 14);
   DefinitionTs.mkDefinitionItem "start" (Num 12) (Num 10) (Num 15)].

(** An [extname] for the examples: every file is a [.h] file. *)
Definition sample_extname (path : string) : string := ".h".

(** A [weidu.reloadData] for the examples. *)
Definition sample_weidu_reloadData (path text : string)
  (completion : option (list CompletionItemEx))
  (hover : option (gmap string HoverEx)) : DynamicData :=
  mkDynamicData [] ∅.

Definition sample_completion_tiers : Completion.Data :=
  Completion.mkData ∅ {[ "fallout-ssl" := [] ]} {[ "fallout-ssl" := [] ]}.

(** ** Sample inputs for the diagnostics sent to the client *)


(** * Properties *)

(** ** Tier lookup of the hover handler *)

Lemma lookup_tiers_spec selfMap staticMap dynamicMap word :
  lookup_tiers selfMap staticMap dynamicMap word =
  match tier_get selfMap word with
  | Some h => Some h
  | None =>
      match tier_get staticMap word with
      | Some h => Some h
      | None => tier_get dynamicMap word
      end
  end.
Proof.
  unfold lookup_tiers, tier_get.
  destruct selfMap as [ms|], staticMap as [mt|], dynamicMap as [md|]; simpl;
    repeat case_match; congruence.
Qed.

Lemma onHover_word isTraRef getTraHover data langId relPath text position word :
  symbolAtPosition text position = Ret word ->
  word <> "" ->
  isTraRef word langId = false ->
  onHover isTraRef getTraHover data langId relPath text position =
  Ret (TierHover <$>
       lookup_tiers (Hover.selfData data !! relPath)
         (Hover.staticData data !! langId)
         (Hover.dynamicData data !! langId) word).
Proof.
  intros Hsym Hne Htra. unfold onHover. rewrite Hsym, Htra.
  assert (String.eqb word "" = false) as -> by (apply String.eqb_neq; exact Hne).
  case_bool_decide as Hall; [|reflexivity].
  destruct Hall as (-> & -> & ->). reflexivity.
Qed.

(** C1. For every language id, path and word under the cursor (a non-empty
    word that is not a translation reference), the hover handler reads the
    self bucket of the path first, then the static bucket of the language
    id, then the dynamic bucket, and answers with the first entry found.
    In particular a name defined in the self bucket is answered from there,
    whatever the static and dynamic buckets hold. *)
Theorem hover_tier_precedence
  (isTraRef : string -> string -> bool)
  (getTraHover : string -> string -> string -> string -> option PlainHover)
  (data : Hover.Data) (langId relPath text : string) (position : Position)
  (word : string) :
  symbolAtPosition text position = Ret word ->
  word <> "" ->
  isTraRef word langId = false ->
  onHover isTraRef getTraHover data langId relPath text position =
    Ret (TierHover <$>
         match tier_get (Hover.selfData data !! relPath) word with
         | Some h => Some h
         | None =>
             match tier_get (Hover.staticData data !! langId) word with
             | Some h => Some h
             | None => tier_get (Hover.dynamicData data !! langId) word
             end
         end)
  /\ (forall selfMap h,
        Hover.selfData data !! relPath = Some selfMap ->
        selfMap !! word = Some h ->
        onHover isTraRef getTraHover data langId relPath text position =
          Ret (Some (TierHover h))).
Proof.
  intros Hsym Hne Htra.
  rewrite (onHover_word _ _ _ _ _ _ _ _ Hsym Hne Htra), lookup_tiers_spec.
  split; [reflexivity|].
  intros selfMap h Hself Hw. rewrite Hself. simpl. rewrite Hw. reflexivity.
Qed.

Lemma hover_tier_precedence_witness :
  onHover (fun _ _ => false) (fun _ _ _ _ => None) sample_hover_data
    "fallout-ssl" "a.ssl" "x := FOO;" (mkPosition 0 6)
  = Ret (Some (TierHover (mkHover (sample_contents "self") "a.ssl"))).
Proof.
  refine (proj2 (hover_tier_precedence (fun _ _ => false) (fun _ _ _ _ => None)
                   sample_hover_data "fallout-ssl" "a.ssl" "x := FOO;"
                   (mkPosition 0 6) "FOO" _ _ _)
            {[ "FOO" := mkHover (sample_contents "self") "a.ssl" ]} _ _ _).
  - vm_compute. reflexivity.
  - discriminate.
  - reflexivity.
  - vm_compute. reflexivity.
  - vm_compute. reflexivity.
Defined.

(** ** Completion listing *)

Lemma onCompletion_static_present data langId relPath staticList :
  Completion.staticData data !! langId = Some staticList ->
  onCompletion data langId relPath =
  Ret (default [] (Completion.selfData data !! relPath) ++ staticList ++
       default [] (Completion.dynamicData data !! langId)).
Proof. intros H. unfold onCompletion. rewrite H. reflexivity. Qed.

Lemma onCompletion_static_missing data langId relPath :
  Completion.staticData data !! langId = None ->
  onCompletion data langId relPath = Throw TypeError.
Proof. intros H. unfold onCompletion. rewrite H. reflexivity. Qed.

(** C5. The completion listing for a language id without a static bucket:
    the self and dynamic lists default to empty, the static list does not,
    and spreading it throws. *)
Theorem onCompletion_unknown_language_throws :
  onCompletion sample_completion_data "weidu-tp2-tpl" "lib.tpa" = Throw TypeError.
Proof. vm_compute. reflexivity. Qed.

(** ** Loading and reloading a bucket *)

Lemma set_all_app m kvs1 kvs2 :
  set_all m (kvs1 ++ kvs2) = set_all (set_all m kvs1) kvs2.
Proof. unfold set_all. apply foldl_app. Qed.

Lemma set_all_union m kvs :
  set_all m kvs = list_to_map (reverse kvs) ∪ m.
Proof.
  revert m. induction kvs as [|[k v] kvs IH]; intros m.
  - simpl. by rewrite (left_id_L ∅ (∪)).
  - change (set_all m ((k, v) :: kvs)) with (set_all (<[k:=v]> m) kvs).
    rewrite IH, reverse_cons, list_to_map_app. simpl.
    rewrite <- (assoc_L (∪)). f_equal.
    by rewrite insert_empty, <- insert_union_singleton_l.
Qed.

Lemma load_macros_spec path hd cl hm :
  load_macros path hd cl hm =
  (cl ++ map (macro_completion_item path) (macros hd),
   set_all hm (map (fun macro => (def_label macro, macro_hover_item path macro))
                 (macros hd))).
Proof.
  unfold load_macros, set_all. revert cl hm.
  induction (macros hd) as [|a l IH]; intros cl hm.
  - simpl. by rewrite app_nil_r.
  - cbn [foldl map]. unfold load_macro at 2. cbn [fst snd].
    rewrite IH. by rewrite <- app_assoc.
Qed.

Lemma load_procedures_spec path hd cl hm :
  load_procedures path hd cl hm =
  (cl ++ map (proc_completion_item path) (procedures hd),
   set_all hm (map (fun proc => (proc_label proc, proc_hover_item path proc))
                 (procedures hd))).
Proof.
  unfold load_procedures, set_all. revert cl hm.
  induction (procedures hd) as [|a l IH]; intros cl hm.
  - simpl. by rewrite app_nil_r.
  - cbn [foldl map]. unfold load_procedure at 2. cbn [fst snd].
    rewrite IH. by rewrite <- app_assoc.
Qed.

Lemma load_both_spec path hd cl hm :
  (let '(cl1, hm1) := load_macros path hd cl hm in
   load_procedures path hd cl1 hm1) =
  (cl ++ fresh_completion path hd, set_all hm (fresh_hover path hd)).
Proof.
  rewrite load_macros_spec, load_procedures_spec.
  unfold fresh_completion, fresh_hover.
  by rewrite set_all_app, app_assoc.
Qed.

Lemma reload_data_spec jsdoc_parse path text completion hover :
  reload_data jsdoc_parse path text completion hover =
  mkDynamicData
    (filter (fun item => Completion.source item ≠ path) (default [] completion) ++
     fresh_completion path (find_symbols jsdoc_parse text))
    (set_all (filter (fun kv => Hover.source kv.2 ≠ path) (default ∅ hover))
       (fresh_hover path (find_symbols jsdoc_parse text))).
Proof.
  unfold reload_data.
  rewrite load_macros_spec, load_procedures_spec.
  unfold fresh_completion, fresh_hover.
  rewrite set_all_app, app_assoc.
  by destruct completion, hover.
Qed.

Lemma fresh_completion_source path hd :
  Forall (fun item => Completion.source item = path) (fresh_completion path hd).
Proof.
  unfold fresh_completion. apply Forall_app. split; apply Forall_fmap, Forall_true; done.
Qed.

Lemma fresh_hover_source path hd :
  Forall (fun kv => Hover.source kv.2 = path) (fresh_hover path hd).
Proof.
  unfold fresh_hover. apply Forall_app. split; apply Forall_fmap, Forall_true; done.
Qed.

Lemma fresh_hover_keys path hd : (fresh_hover path hd).*1 = labels hd.
Proof.
  unfold fresh_hover, labels. rewrite fmap_app, <- !list_fmap_compose. done.
Qed.

Lemma fresh_completion_labels path hd :
  map Completion.label (fresh_completion path hd) = labels hd.
Proof.
  unfold fresh_completion, labels. rewrite map_app, !map_map. done.
Qed.

Lemma filter_all_true {A} (P : A -> Prop) `{!forall x, Decision (P x)} (l : list A) :
  Forall P l -> filter P l = l.
Proof.
  induction 1 as [|x l Hx _ IH]; [done|].
  by rewrite filter_cons_True, IH.
Qed.

Lemma filter_all_false {A} (P : A -> Prop) `{!forall x, Decision (P x)} (l : list A) :
  Forall (fun x => ~ P x) l -> filter P l = [].
Proof.
  induction 1 as [|x l Hx _ IH]; [done|].
  by rewrite filter_cons_False.
Qed.

Lemma Forall_filter_self {A} (P : A -> Prop) `{!forall x, Decision (P x)} (l : list A) :
  Forall P (filter P l).
Proof.
  induction l as [|x l IH]; [constructor|].
  destruct (decide (P x)).
  - rewrite filter_cons_True by done. by constructor.
  - by rewrite filter_cons_False.
Qed.

(** Setting the same pairs again on the filtered result changes nothing,
    provided the map the pairs were first set on had passed the filter. *)
Lemma set_all_refilter (P : string * HoverEx -> Prop)
  `{!forall x, Decision (P x)} (m : gmap string HoverEx) kvs :
  (forall k v, m !! k = Some v -> P (k, v)) ->
  set_all (filter P (set_all m kvs)) kvs = set_all m kvs.
Proof.
  intros Hm. rewrite !set_all_union.
  apply map_eq. intros k. rewrite !lookup_union.
  destruct (list_to_map (reverse kvs) !! k) as [v|] eqn:HF;
    [by rewrite !union_Some_l|].
  rewrite !(left_id_L None (∪)).
  rewrite map_lookup_filter, lookup_union, HF, (left_id_L None (∪)).
  destruct (m !! k) as [v|] eqn:Hk; [|done].
  simpl. by rewrite option_guard_True by (by apply Hm).
Qed.

Lemma lookup_set_all_notin (m : gmap string HoverEx) kvs k :
  k ∉ (kvs.*1) -> set_all m kvs !! k = m !! k.
Proof.
  intros Hk. rewrite set_all_union, lookup_union.
  rewrite (not_elem_of_list_to_map_1 (reverse kvs) k); [by rewrite (left_id_L None (∪))|].
  by rewrite fmap_reverse, elem_of_reverse.
Qed.

Lemma lookup_set_all_Some (m : gmap string HoverEx) kvs k v :
  set_all m kvs !! k = Some v ->
  ((k, v) ∈ kvs) \/ ((k ∉ (kvs.*1)) /\ m !! k = Some v).
Proof.
  rewrite set_all_union, lookup_union.
  destruct (list_to_map (reverse kvs) !! k) as [w|] eqn:HF.
  - rewrite union_Some_l. intros [= ->]. left.
    apply elem_of_list_to_map_2 in HF. by rewrite elem_of_reverse in HF.
  - rewrite (left_id_L None (∪)). intros Hm. right. split; [|done].
    apply not_elem_of_list_to_map_2 in HF.
    by rewrite fmap_reverse, elem_of_reverse in HF.
Qed.

Lemma lookup_set_all_in (m : gmap string HoverEx) kvs k :
  k ∈ (kvs.*1) -> exists v, set_all m kvs !! k = Some v /\ (k, v) ∈ kvs.
Proof.
  intros Hk. rewrite set_all_union, lookup_union.
  destruct (list_to_map (reverse kvs) !! k) as [w|] eqn:HF.
  - exists w. rewrite union_Some_l. split; [done|].
    apply elem_of_list_to_map_2 in HF. by rewrite elem_of_reverse in HF.
  - apply not_elem_of_list_to_map_2 in HF.
    by rewrite fmap_reverse, elem_of_reverse in HF.
Qed.

(** C7. Reloading the same path with the same text a second time, on the
    result of the first reload, gives back that result: the completion
    list and the hover map are the same. *)
Theorem reload_data_idempotent (jsdoc_parse : string -> Jsdoc.JSdoc)
  (path text : string) (completion : option (list CompletionItemEx))
  (hover : option (gmap string HoverEx)) :
  reload_data jsdoc_parse path text
    (Some (FalloutSSL.completion (reload_data jsdoc_parse path text completion hover)))
    (Some (FalloutSSL.hover (reload_data jsdoc_parse path text completion hover)))
  = reload_data jsdoc_parse path text completion hover.
Proof.
  rewrite !reload_data_spec.
  cbn [FalloutSSL.completion FalloutSSL.hover from_option]. unfold id.
  set (hd := find_symbols jsdoc_parse text).
  f_equal.
  - rewrite filter_app.
    rewrite (filter_all_true _ (filter _ _)) by apply Forall_filter_self.
    rewrite (filter_all_false _ (fresh_completion path hd)); [by rewrite app_nil_r|].
    eapply Forall_impl; [apply fresh_completion_source|].
    intros item Hs Hne. by apply Hne.
  - apply set_all_refilter.
    intros k v Hk. by apply map_lookup_filter_Some in Hk as [_ HP].
Qed.

(** C10. With an undefined completion list and an undefined hover map
    [reload_data] returns a bucket, the same as for an empty list and an
    empty map: the completion list holds one item per symbol extracted from
    the text, in extraction order, the hover map holds an entry exactly
    for the extracted names, and every item and entry is tagged with the
    path. *)
Theorem reload_data_undefined_bucket (jsdoc_parse : string -> Jsdoc.JSdoc)
  (path text : string) :
  let hd := find_symbols jsdoc_parse text in
  let d := reload_data jsdoc_parse path text None None in
  d = reload_data jsdoc_parse path text (Some []) (Some ∅)
  /\ FalloutSSL.completion d = fresh_completion path hd
  /\ FalloutSSL.hover d = set_all ∅ (fresh_hover path hd)
  /\ map Completion.label (FalloutSSL.completion d) = labels hd
  /\ Forall (fun item => Completion.source item = path) (FalloutSSL.completion d)
  /\ (forall k, is_Some (FalloutSSL.hover d !! k) <-> k ∈ labels hd)
  /\ (forall k v, FalloutSSL.hover d !! k = Some v ->
        Hover.source v = path /\ (k, v) ∈ fresh_hover path hd).
Proof.
  intros hd d. subst d. rewrite !reload_data_spec. fold hd.
  cbn [FalloutSSL.completion FalloutSSL.hover from_option]. unfold id.
  rewrite filter_nil, map_filter_empty. cbn [app].
  split; [done|]. split; [done|]. split; [done|].
  split; [apply (fresh_completion_labels path hd)|].
  split; [apply (fresh_completion_source path hd)|].
  split.
  - intros k. rewrite <- (fresh_hover_keys path hd). split.
    + intros [v Hv]. apply lookup_set_all_Some in Hv as [Hin|[_ Hv]].
      * apply list_elem_of_fmap. by exists (k, v).
      * by rewrite lookup_empty in Hv.
    + intros Hk. destruct (lookup_set_all_in ∅ _ _ Hk) as (v & Hv & _). by exists v.
  - intros k v Hv. apply lookup_set_all_Some in Hv as [Hin|[_ Hv]].
    + split; [|done].
      pose proof (fresh_hover_source path hd) as Hall.
      rewrite Forall_forall in Hall. apply (Hall (k, v)). done.
    + by rewrite lookup_empty in Hv.
Qed.

Lemma reload_data_undefined_bucket_witness :
  Hover.source sample_start_hover = "a.ssl" /\
  ("start", sample_start_hover) ∈
    fresh_hover "a.ssl" (find_symbols describe_only "procedure start begin end").
Proof.
  destruct (reload_data_undefined_bucket describe_only "a.ssl"
              "procedure start begin end") as (_ & _ & _ & _ & _ & _ & H).
  apply (H "start" sample_start_hover). vm_compute. reflexivity.
Defined.

Lemma load_header_spec jsdoc_parse acc header :
  load_header jsdoc_parse acc header =
  (acc.1 ++ fresh_completion header.1 (find_symbols jsdoc_parse header.2),
   set_all acc.2 (fresh_hover header.1 (find_symbols jsdoc_parse header.2))).
Proof.
  destruct header as [header_path text]. unfold load_header.
  apply load_both_spec.
Qed.

Lemma load_data_fold jsdoc_parse headers acc :
  foldl (load_header jsdoc_parse) acc headers =
  (acc.1 ++ loaded_completion jsdoc_parse headers,
   set_all acc.2 (loaded_hover jsdoc_parse headers)).
Proof.
  revert acc. induction headers as [|h headers IH]; intros [cl hm].
  - simpl. by rewrite app_nil_r.
  - cbn [foldl]. rewrite IH, load_header_spec.
    unfold loaded_completion, loaded_hover. cbn [map concat fst snd].
    by rewrite set_all_app, app_assoc.
Qed.

Lemma load_data_spec jsdoc_parse headers :
  load_data jsdoc_parse headers =
  mkDynamicData (loaded_completion jsdoc_parse headers)
    (set_all ∅ (loaded_hover jsdoc_parse headers)).
Proof. unfold load_data. by rewrite load_data_fold. Qed.

Lemma loaded_completion_source jsdoc_parse headers item :
  item ∈ loaded_completion jsdoc_parse headers ->
  exists text,
    (Completion.source item, text) ∈ headers /\
    item ∈ fresh_completion (Completion.source item) (find_symbols jsdoc_parse text).
Proof.
  unfold loaded_completion. intros Hin.
  apply list_elem_of_In, in_concat in Hin. destruct Hin as (l & Hl & Hitem).
  apply in_map_iff in Hl as ([p text] & <- & Hh).
  apply list_elem_of_In in Hitem, Hh.
  pose proof (fresh_completion_source p (find_symbols jsdoc_parse text)) as Hall.
  rewrite Forall_forall in Hall. specialize (Hall _ Hitem).
  cbn [fst snd] in *. subst p. by exists text.
Qed.

Lemma loaded_hover_source jsdoc_parse headers kv :
  kv ∈ loaded_hover jsdoc_parse headers ->
  exists text,
    (Hover.source kv.2, text) ∈ headers /\
    kv ∈ fresh_hover (Hover.source kv.2) (find_symbols jsdoc_parse text).
Proof.
  unfold loaded_hover. intros Hin.
  apply list_elem_of_In, in_concat in Hin. destruct Hin as (l & Hl & Hitem).
  apply in_map_iff in Hl as ([p text] & <- & Hh).
  apply list_elem_of_In in Hitem, Hh.
  pose proof (fresh_hover_source p (find_symbols jsdoc_parse text)) as Hall.
  rewrite Forall_forall in Hall. specialize (Hall _ Hitem).
  cbn [fst snd] in *. subst p. by exists text.
Qed.

(** C9. Every completion item pushed and every hover entry set by
    [load_macros] and [load_procedures] carries the path they were called
    with as its source.  Hence in the result of [reload_data] an item or
    entry either carries the reloaded path or is an old one with another
    source, and in the result of [load_data] every item and entry carries
    the path of the header it was extracted from. *)
Theorem loaded_entries_carry_path (jsdoc_parse : string -> Jsdoc.JSdoc)
  (path : string) (hd : HeaderDataList)
  (cl : list CompletionItemEx) (hm : gmap string HoverEx) :
  (exists items kvs,
      load_macros path hd cl hm = (cl ++ items, set_all hm kvs)
      /\ Forall (fun item => Completion.source item = path) items
      /\ Forall (fun kv => Hover.source kv.2 = path) kvs)
  /\ (exists items kvs,
      load_procedures path hd cl hm = (cl ++ items, set_all hm kvs)
      /\ Forall (fun item => Completion.source item = path) items
      /\ Forall (fun kv => Hover.source kv.2 = path) kvs)
  /\ (forall text completion hover,
        Forall (fun item =>
                  Completion.source item = path \/
                  (Completion.source item <> path /\ item ∈ default [] completion))
          (FalloutSSL.completion (reload_data jsdoc_parse path text completion hover))
        /\ (forall k v,
              FalloutSSL.hover (reload_data jsdoc_parse path text completion hover) !! k
                = Some v ->
              Hover.source v = path \/
              (Hover.source v <> path /\ default ∅ hover !! k = Some v)))
  /\ (forall headers,
        Forall (fun item =>
                  exists text,
                    (Completion.source item, text) ∈ headers /\
                    item ∈ fresh_completion (Completion.source item)
                             (find_symbols jsdoc_parse text))
          (FalloutSSL.completion (load_data jsdoc_parse headers))
        /\ (forall k v,
              FalloutSSL.hover (load_data jsdoc_parse headers) !! k = Some v ->
              exists text,
                (Hover.source v, text) ∈ headers /\
                (k, v) ∈ fresh_hover (Hover.source v) (find_symbols jsdoc_parse text))).
Proof.
  split; [|split; [|split]].
  - eexists _, _. split; [apply load_macros_spec|].
    split; apply Forall_fmap, Forall_true; done.
  - eexists _, _. split; [apply load_procedures_spec|].
    split; apply Forall_fmap, Forall_true; done.
  - intros text completion hover. rewrite reload_data_spec.
    cbn [FalloutSSL.completion FalloutSSL.hover]. split.
    + apply Forall_app. split.
      * apply Forall_forall. intros item Hin.
        apply list_elem_of_filter in Hin as [Hne Hin]. right. done.
      * eapply Forall_impl; [apply fresh_completion_source|].
        intros item Hs. by left.
    + intros k v Hv. apply lookup_set_all_Some in Hv as [Hin|[_ Hv]].
      * left. pose proof (fresh_hover_source path (find_symbols jsdoc_parse text)) as Hall.
        rewrite Forall_forall in Hall. apply (Hall (k, v)). done.
      * right. by apply map_lookup_filter_Some in Hv as [Hv Hne].
  - intros headers. rewrite load_data_spec.
    cbn [FalloutSSL.completion FalloutSSL.hover]. split.
    + apply Forall_forall. intros item Hin.
      by apply loaded_completion_source.
    + intros k v Hv. apply lookup_set_all_Some in Hv as [Hin|[_ Hv]].
      * by apply (loaded_hover_source jsdoc_parse headers (k, v)).
      * by rewrite lookup_empty in Hv.
Qed.

Lemma loaded_entries_carry_path_witness :
  exists text,
    (Hover.source sample_heal_hover, text) ∈ sample_headers /\
    ("heal", sample_heal_hover) ∈
      fresh_hover (Hover.source sample_heal_hover) (find_symbols describe_only text).
Proof.
  destruct (loaded_entries_carry_path describe_only "lib/misc.h"
              (mkHeaderData [] []) [] ∅) as (_ & _ & _ & H).
  destruct (H sample_headers) as [_ Hhover].
  apply (Hhover "heal" sample_heal_hover). vm_compute. reflexivity.
Defined.

(** ** Isolation of a reload *)

(** The hover map holds one entry per name: reloading a.h, whose text
    defines [FOO], replaces the entry that b.h had for [FOO]. *)
Lemma reload_data_replaces_foreign_hover :
  sample_dynamic_hover !! "FOO" = Some sample_foreign_hover
  /\ Hover.source sample_foreign_hover <> "a.h"
  /\ FalloutSSL.hover
       (reload_data describe_only "a.h" "#define FOO 1" (Some [])
          (Some sample_dynamic_hover)) !! "FOO"
     <> Some sample_foreign_hover.
Proof.
  split; [reflexivity|]. split; [discriminate|].
  vm_compute. discriminate.
Qed.

(** C8, amended. Reloading path [A]: the completion items whose source is
    not [A] are the same, in the same order, before and after; a hover
    entry whose source is not [A] is unchanged unless its name is declared
    in the new text of [A]; and every hover entry of the result whose
    source is not [A] is an unchanged old entry. *)
Theorem reload_data_isolation (jsdoc_parse : string -> Jsdoc.JSdoc)
  (path text : string) (completion : option (list CompletionItemEx))
  (hover : option (gmap string HoverEx)) :
  filter (fun item => Completion.source item ≠ path)
    (FalloutSSL.completion (reload_data jsdoc_parse path text completion hover))
  = filter (fun item => Completion.source item ≠ path) (default [] completion)
  /\ (forall k v,
        default ∅ hover !! k = Some v ->
        Hover.source v <> path ->
        k ∉ labels (find_symbols jsdoc_parse text) ->
        FalloutSSL.hover (reload_data jsdoc_parse path text completion hover) !! k
          = Some v)
  /\ (forall k v,
        FalloutSSL.hover (reload_data jsdoc_parse path text completion hover) !! k
          = Some v ->
        Hover.source v <> path ->
        default ∅ hover !! k = Some v).
Proof.
  rewrite reload_data_spec. cbn [FalloutSSL.completion FalloutSSL.hover].
  set (hd := find_symbols jsdoc_parse text).
  split; [|split].
  - rewrite filter_app.
    rewrite (filter_all_true _ (filter _ _)) by apply Forall_filter_self.
    rewrite (filter_all_false _ (fresh_completion path hd)); [by rewrite app_nil_r|].
    eapply Forall_impl; [apply fresh_completion_source|].
    intros item Hs Hne. by apply Hne.
  - intros k v Hv Hne Hk.
    rewrite lookup_set_all_notin by (by rewrite fresh_hover_keys).
    by apply map_lookup_filter_Some.
  - intros k v Hv Hne. apply lookup_set_all_Some in Hv as [Hin|[_ Hv]].
    + pose proof (fresh_hover_source path hd) as Hall.
      rewrite Forall_forall in Hall. by specialize (Hall _ Hin).
    + by apply map_lookup_filter_Some in Hv as [Hv _].
Qed.

Lemma reload_data_isolation_witness :
  FalloutSSL.hover
    (reload_data describe_only "a.h" "#define BAR 1" (Some [])
       (Some sample_dynamic_hover)) !! "FOO"
  = Some sample_foreign_hover.
Proof.
  destruct (reload_data_isolation describe_only "a.h" "#define BAR 1" (Some [])
              (Some sample_dynamic_hover)) as (_ & H & _).
  apply H.
  - reflexivity.
  - discriminate.
  - assert (labels (find_symbols describe_only "#define BAR 1") = ["BAR"]) as ->
      by (vm_compute; reflexivity).
    apply not_elem_of_cons. split; [discriminate|apply not_elem_of_nil].
Defined.

(** ** The matcher: what a successful run has matched *)

Lemma orelse_Some {A} (x y : option A) (r : A) :
  orelse x y = Some r -> x = Some r \/ (x = None /\ y = Some r).
Proof. destruct x; simpl; intros; [left|right]; auto. Qed.

Lemma star_loop_sound body gs (D : mstate -> mstate -> Prop) :
  (forall k s res, body k s = Some res -> exists s', D s s' /\ k s' = Some res) ->
  forall n k s res,
    star_loop body gs k n s = Some res ->
    exists s', rtc (fun x y => D (clear gs x) y /\ pos y <> pos x) s s' /\
               k s' = Some res.
Proof.
  intros Hbody n k. induction n as [|n IH]; intros s res Hrun; simpl in Hrun.
  - exists s. split; [apply rtc_refl|done].
  - apply orelse_Some in Hrun as [Hrun|[_ Hrun]].
    + apply Hbody in Hrun as (s1 & HD & Hk).
      destruct (decide (pos s1 = pos s)) as [|Hne]; [done|].
      apply IH in Hk as (s' & Hrtc & Hk).
      exists s'. split; [|done]. eapply rtc_l; [|exact Hrtc]. done.
    + exists s. split; [apply rtc_refl|done].
Qed.

Lemma run_sound r :
  forall k s res, run r k s = Some res -> exists s', den r s s' /\ k s' = Some res.
Proof.
  induction r as [|p|a IHa b IHb|a IHa b IHb|a IHa|n a IHa|a IHa| |];
    intros k s res Hrun; cbn [run] in Hrun.
  - by exists s.
  - destruct (rest s) as [|c t] eqn:Hrest; [done|].
    destruct (p c) eqn:Hp; [|done].
    eexists. split; [|exact Hrun]. simpl. by exists c, t.
  - apply IHa in Hrun as (s1 & Ha & Hrun).
    apply IHb in Hrun as (s2 & Hb & Hk).
    exists s2. split; [|done]. by exists s1.
  - apply orelse_Some in Hrun as [Hrun|[_ Hrun]].
    + apply IHa in Hrun as (s' & Ha & Hk). exists s'. split; [by left|done].
    + apply IHb in Hrun as (s' & Hb & Hk). exists s'. split; [by right|done].
  - by apply (star_loop_sound _ _ (den a) IHa) in Hrun.
  - apply IHa in Hrun as (s1 & Ha & Hk).
    eexists. split; [|exact Hk]. by exists s1.
  - destruct (run a Some s) eqn:Hahead; [done|]. by exists s.
  - destruct (decide (pos s = 0)); [|done]. by exists s.
  - destruct (rest s) eqn:Hrest; [|done]. by exists s.
Qed.

Lemma advances_refl s : advances s s.
Proof.
  unfold advances. replace (pos s - pos s) with 0 by lia.
  split; [lia|]. split; [done|lia].
Qed.

Lemma advances_trans s1 s2 s3 : advances s1 s2 -> advances s2 s3 -> advances s1 s3.
Proof.
  unfold advances. intros (H1 & H2 & H3) (H4 & H5 & H6).
  rewrite H2 in H5, H6. rewrite length_drop in H6.
  split; [lia|]. split; [|lia].
  rewrite H5, drop_drop. f_equal. lia.
Qed.

Lemma den_advances r : forall s s', den r s s' -> advances s s'.
Proof.
  induction r as [|p|a IHa b IHb|a IHa b IHb|a IHa|n a IHa|a IHa| |];
    intros s s' Hden; simpl in Hden.
  - subst. apply advances_refl.
  - destruct Hden as (c & t & Hrest & _ & ->). unfold advances. simpl.
    replace (S (pos s) - pos s) with 1 by lia. rewrite Hrest. simpl.
    split; [lia|]. split; [by rewrite drop_0|lia].
  - destruct Hden as (s1 & Ha & Hb). eapply advances_trans; eauto.
  - destruct Hden as [Ha|Hb]; eauto.
  - induction Hden as [s|s s1 s2 [Ha _] _ IH]; [apply advances_refl|].
    eapply advances_trans; [|exact IH]. apply IHa in Ha. exact Ha.
  - destruct Hden as (s1 & Ha & ->). apply IHa in Ha. exact Ha.
  - destruct Hden as [_ ->]. apply advances_refl.
  - destruct Hden as [_ ->]. apply advances_refl.
  - destruct Hden as [_ ->]. apply advances_refl.
Qed.

(** A run calls its continuation on states further on only. *)
Lemma advances_step s c t :
  rest s = c :: t -> advances s (MState (S (pos s)) t (caps s)).
Proof.
  intros Hrest. unfold advances. simpl.
  replace (S (pos s) - pos s) with 1 by lia. rewrite Hrest. simpl.
  rewrite drop_0. split; [lia|]. split; [done|lia].
Qed.

Lemma star_loop_ext body gs :
  (forall k1 k2 s,
      (forall s', advances s s' -> k1 s' = k2 s') -> body k1 s = body k2 s) ->
  forall n k1 k2 s,
    (forall s', advances s s' -> k1 s' = k2 s') ->
    star_loop body gs k1 n s = star_loop body gs k2 n s.
Proof.
  intros Hbody n. induction n as [|n IH]; intros k1 k2 s Hk; simpl.
  - apply Hk, advances_refl.
  - rewrite (Hk s (advances_refl s)). f_equal.
    apply Hbody. intros s' Hadv.
    destruct (decide (pos s' = pos s)); [done|].
    apply IH. intros s'' Hadv'. apply Hk.
    eapply advances_trans; [|exact Hadv']. exact Hadv.
Qed.

Lemma run_ext r :
  forall k1 k2 s,
    (forall s', advances s s' -> k1 s' = k2 s') -> run r k1 s = run r k2 s.
Proof.
  induction r as [|p|a IHa b IHb|a IHa b IHb|a IHa|n a IHa|a IHa| |];
    intros k1 k2 s Hk; cbn [run].
  - apply Hk, advances_refl.
  - destruct (rest s) as [|c t] eqn:Hrest; [done|].
    destruct (p c); [|done]. apply Hk. by apply (advances_step s c t).
  - apply IHa. intros s1 H1. apply IHb. intros s2 H2.
    apply Hk. by eapply advances_trans.
  - by rewrite (IHa k1 k2 s Hk), (IHb k1 k2 s Hk).
  - by apply star_loop_ext.
  - apply IHa. intros s' Hadv. apply Hk. exact Hadv.
  - destruct (run a Some s); [done|]. apply Hk, advances_refl.
  - destruct (decide (pos s = 0)); [|done]. apply Hk, advances_refl.
  - destruct (rest s); [|done]. apply Hk, advances_refl.
Qed.

(** The bound of a repetition is never reached: any bound above the
    number of remaining code units gives the same result. *)
Lemma star_loop_enough a gs k :
  forall n1 n2 s,
    length (rest s) < n1 -> length (rest s) < n2 ->
    star_loop (run a) gs k n1 s = star_loop (run a) gs k n2 s.
Proof.
  induction n1 as [|n1 IH]; intros n2 s H1 H2; [lia|].
  destruct n2 as [|n2]; [lia|]. simpl. f_equal.
  apply run_ext. intros s' (Hle & Hrest & Hlen). simpl in *.
  destruct (decide (pos s' = pos s)) as [|Hne]; [done|].
  assert (length (rest s') < length (rest s)) as Hlt.
  { rewrite Hrest, length_drop. lia. }
  apply IH; lia.
Qed.

Lemma run_Star_enough a k s n :
  length (rest s) < n ->
  run (Star a) k s = star_loop (run a) (groups_of a) k n s.
Proof. intros Hn. cbn [run]. apply star_loop_enough; lia. Qed.

Lemma length_list_ascii_of_string s :
  length (list_ascii_of_string s) = String.length s.
Proof. induction s as [|c s IH]; simpl; [done|by rewrite IH]. Qed.

Lemma match_at_is_match r i input mt :
  match_at r i input = Some mt -> index mt = i /\ is_match r i input mt.
Proof.
  unfold match_at. destruct (run r Some (MState i input ∅)) as [s'|] eqn:Hrun; [|done].
  intros [= <-]. simpl.
  apply run_sound in Hrun as (s1 & Hden & [= ->]).
  pose proof (den_advances _ _ _ Hden) as (Hle & _ & Hlen). simpl in *.
  split; [done|]. unfold is_match. simpl.
  replace (i - i) with 0 by lia. rewrite drop_0.
  split; [lia|]. split; [lia|]. split; [lia|]. by exists s'.
Qed.

Lemma exec_from_is_match r input :
  forall i mt, exec_from r i input = Some mt -> is_match r i input mt.
Proof.
  induction input as [|c t IH]; intros i mt Hexec; simpl in Hexec.
  - destruct (match_at r i []) eqn:Hm; [|done]. injection Hexec as ->.
    by apply match_at_is_match in Hm as [_ Hm].
  - destruct (match_at r i (c :: t)) eqn:Hm.
    + injection Hexec as ->. by apply match_at_is_match in Hm as [_ Hm].
    + apply IH in Hexec as (H1 & H2 & H3 & s' & Hden & Hlast & Hg).
      unfold is_match. simpl in *.
      split; [lia|]. split; [lia|]. split; [lia|].
      exists s'. split; [|done].
      replace (index mt - i) with (S (index mt - S i)) by lia. done.
Qed.

Lemma exec_is_match r text lastIndex mt :
  exec r text lastIndex = Some mt ->
  lastIndex <= index mt /\ index mt <= match_end mt /\ match_end mt <= String.length text /\
  exists s',
    den r (MState (index mt) (drop (index mt) (list_ascii_of_string text)) ∅) s' /\
    match_end mt = pos s' /\ groups mt = caps s'.
Proof.
  unfold exec. destruct (decide (lastIndex <= String.length text)) as [Hle|]; [|done].
  intros Hexec. apply exec_from_is_match in Hexec as (H1 & H2 & H3 & s' & Hden & Hl & Hg).
  rewrite length_drop, length_list_ascii_of_string in H3.
  rewrite drop_drop in Hden.
  replace (lastIndex + (index mt - lastIndex)) with (index mt) in Hden by lia.
  split; [lia|]. split; [lia|]. split; [lia|]. by exists s'.
Qed.

Lemma exec_past_end r text lastIndex :
  String.length text < lastIndex -> exec r text lastIndex = None.
Proof.
  intros Hlt. unfold exec.
  destruct (decide (lastIndex <= String.length text)); [lia|done].
Qed.

(** The loop over the matches of a global pattern ends before the fuel of
    [exec_all] is used up: more fuel gives the same matches. *)
Lemma exec_loop_enough r text :
  forall fuel1 fuel2 lastIndex,
    String.length text + 2 <= fuel1 + lastIndex ->
    String.length text + 2 <= fuel2 + lastIndex ->
    exec_loop fuel1 r text lastIndex = exec_loop fuel2 r text lastIndex.
Proof.
  induction fuel1 as [|fuel1 IH]; intros fuel2 lastIndex H1 H2.
  - simpl. destruct fuel2 as [|fuel2]; [done|]. simpl.
    rewrite exec_past_end by lia. done.
  - destruct fuel2 as [|fuel2].
    + simpl. rewrite exec_past_end by lia. done.
    + simpl. destruct (exec r text lastIndex) as [mt|] eqn:Hexec; [|done].
      apply exec_is_match in Hexec as (Hli & Hil & _).
      f_equal. apply IH; destruct (decide (index mt = match_end mt)); lia.
Qed.

Lemma exec_all_enough r text fuel :
  String.length text + 2 <= fuel -> exec_loop fuel r text 0 = exec_all r text.
Proof. intros Hle. unfold exec_all. apply exec_loop_enough; lia. Qed.

(** Every match collected by [exec_all] is a match of the pattern. *)
Lemma exec_loop_matches r text mt :
  forall fuel lastIndex,
    mt ∈ exec_loop fuel r text lastIndex ->
    exists li, exec r text li = Some mt.
Proof.
  induction fuel as [|fuel IH]; intros lastIndex Hin; simpl in Hin.
  - by apply elem_of_nil in Hin.
  - destruct (exec r text lastIndex) as [mt'|] eqn:Hexec.
    + apply elem_of_cons in Hin as [->|Hin]; [by exists lastIndex|].
      by apply IH in Hin.
    + by apply elem_of_nil in Hin.
Qed.

Lemma exec_all_matches r text mt :
  mt ∈ exec_all r text -> exists li, exec r text li = Some mt.
Proof. apply exec_loop_matches. Qed.

(** A run leaves the groups that the pattern does not contain as they
    were. *)
Lemma lookup_clear_notin gs s n : n ∉ gs -> caps (clear gs s) !! n = caps s !! n.
Proof.
  unfold clear. simpl. induction gs as [|g gs IH]; intros Hn; simpl; [done|].
  apply not_elem_of_cons in Hn as [Hne Hn].
  rewrite lookup_delete_ne by done. by apply IH.
Qed.

Lemma den_frame r :
  forall s s' n, den r s s' -> n ∉ groups_of r -> caps s' !! n = caps s !! n.
Proof.
  induction r as [|p|a IHa b IHb|a IHa b IHb|a IHa|g a IHa|a IHa| |];
    intros s s' n Hden Hn; simpl in Hden, Hn.
  - by subst.
  - by destruct Hden as (c & t & _ & _ & ->).
  - apply not_elem_of_app in Hn as [Hna Hnb].
    destruct Hden as (s1 & Ha & Hb).
    rewrite (IHb _ _ _ Hb Hnb). by apply IHa.
  - apply not_elem_of_app in Hn as [Hna Hnb].
    destruct Hden as [Ha|Hb]; eauto.
  - induction Hden as [s|s s1 s2 [Ha _] _ IH]; [done|].
    rewrite IH. rewrite (IHa _ _ _ Ha Hn). by apply lookup_clear_notin.
  - apply not_elem_of_cons in Hn as [Hne Hn].
    destruct Hden as (s1 & Ha & ->). unfold capture. simpl.
    rewrite lookup_insert_ne by done. by apply IHa.
  - by destruct Hden as [_ ->].
  - by destruct Hden as [_ ->].
  - by destruct Hden as [_ ->].
Qed.

Lemma consumed_split s s' :
  advances s s' -> rest s = consumed s s' ++ rest s'.
Proof.
  intros (_ & -> & _). unfold consumed. by rewrite take_drop.
Qed.

Lemma consumed_trans s1 s2 s3 :
  advances s1 s2 -> advances s2 s3 ->
  consumed s1 s3 = consumed s1 s2 ++ consumed s2 s3.
Proof.
  intros H12 H23. pose proof (advances_trans _ _ _ H12 H23) as H13.
  pose proof (consumed_split _ _ H12) as E12.
  pose proof (consumed_split _ _ H23) as E23.
  pose proof (consumed_split _ _ H13) as E13.
  rewrite E23, app_assoc in E12. rewrite E12 in E13.
  apply app_inv_tail in E13. done.
Qed.

Lemma length_consumed s s' : advances s s' -> length (consumed s s') = pos s' - pos s.
Proof.
  intros (_ & _ & Hlen). unfold consumed. rewrite length_take. lia.
Qed.

(** A group holds what its pattern consumed. *)
Lemma den_group n a s s' :
  den (Group n a) s s' ->
  caps s' !! n = Some (string_of_list_ascii (consumed s s')) /\
  exists s1, den a s s1 /\ pos s' = pos s1 /\ rest s' = rest s1.
Proof.
  simpl. intros (s1 & Ha & ->). unfold capture, consumed. simpl.
  rewrite lookup_insert_eq. split; [done|]. by exists s1.
Qed.

(** A repeated character class consumes code units of the class and
    captures nothing. *)
Lemma den_star_class p s s' :
  den (Star (Chr p)) s s' ->
  Forall (fun c => p c = true) (consumed s s') /\ caps s' = caps s.
Proof.
  intros Hden. pose proof Hden as Hrtc. simpl in Hrtc.
  induction Hrtc as [s|s s1 s2 [Ha _] Hrtc IH].
  - unfold consumed. replace (pos s - pos s) with 0 by lia. by rewrite take_0.
  - assert (den (Star (Chr p)) s1 s2) as Hden2 by exact Hrtc.
    destruct (IH Hden2) as [Hall Hcaps].
    pose proof (den_advances _ _ _ Hden2) as Hadv2.
    destruct Ha as (c & t & Hrest & Hp & ->). simpl in *.
    assert (advances s (MState (S (pos s)) t (caps s))) as Hadv1.
    { unfold advances. simpl. replace (S (pos s) - pos s) with 1 by lia.
      rewrite Hrest. simpl. rewrite drop_0. split; [lia|]. split; [done|lia]. }
    rewrite (consumed_trans _ _ _ Hadv1 Hadv2). split; [|done].
    apply Forall_app. split; [|done].
    unfold consumed. simpl. replace (S (pos s) - pos s) with 1 by lia.
    rewrite Hrest. simpl. rewrite take_0. by constructor.
Qed.

(** ** Numbers read by [parseInt] *)

Lemma digit_code c : CharClass.digit c = true -> (48 <= CharClass.code c <= 57)%N.
Proof.
  unfold CharClass.digit, CharClass.between. intros H.
  apply andb_true_iff in H as [H1 H2].
  apply N.leb_le in H1, H2. lia.
Qed.

Lemma digit_value_digit c :
  CharClass.digit c = true ->
  digit_value 10 c = Some (Z.of_N (CharClass.code c) - 48)%Z.
Proof.
  intros H. unfold digit_value. rewrite H.
  apply digit_code in H.
  destruct (Z.ltb_spec (Z.of_N (CharClass.code c) - 48) 10); [done|lia].
Qed.

Lemma digits_prefix_digits l :
  forall acc,
    Forall (fun c => CharClass.digit c = true) l ->
    (acc = None -> l <> []) ->
    digits_prefix 10 acc l =
    integer (fold_left (fun a c => (a * 10 + (Z.of_N (CharClass.code c) - 48))%Z) l
               (default 0%Z acc)).
Proof.
  induction l as [|c t IH]; intros acc Hall Hne.
  - destruct acc; [done|]. by destruct Hne.
  - inversion Hall as [|? ? Hc Ht]; subst. simpl.
    rewrite (digit_value_digit _ Hc).
    rewrite IH by done. by destruct acc.
Qed.

Lemma digit_not_space c : CharClass.digit c = true -> CharClass.space c = false.
Proof.
  intros H. apply digit_code in H.
  unfold CharClass.space, CharClass.between.
  destruct (N.leb_spec 9 (CharClass.code c)), (N.leb_spec (CharClass.code c) 13),
    (N.eqb_spec (CharClass.code c) 32), (N.eqb_spec (CharClass.code c) 160);
    simpl; try done; lia.
Qed.

Lemma digit_not_char c (a : ascii) :
  CharClass.digit c = true -> CharClass.digit a = false -> Ascii.eqb c a = false.
Proof.
  intros Hc Ha. destruct (Ascii.eqb_spec c a) as [->|]; [congruence|done].
Qed.

Lemma parseInt_digits s :
  all_digits s -> s <> "" ->
  parseInt s = integer (decimal (list_ascii_of_string s)).
Proof.
  unfold all_digits, all_chars, parseInt, decimal. intros Hall Hne.
  destruct (list_ascii_of_string s) as [|c t] eqn:Hl.
  { destruct s; [done|discriminate]. }
  inversion Hall as [|? ? Hc Ht]; subst.
  simpl. rewrite (digit_not_space _ Hc).
  rewrite !(digit_not_char c) by done.
  unfold parse_radix. destruct t as [|x t'].
  - by rewrite digits_prefix_digits.
  - inversion Ht as [|? ? Hx Ht']; subst.
    rewrite !(digit_not_char x) by done. rewrite andb_false_r.
    by rewrite digits_prefix_digits.
Qed.

Lemma decimal_from_nonneg l :
  forall a,
    Forall (fun c => CharClass.digit c = true) l -> (0 <= a)%Z ->
    (0 <= fold_left (fun a c => (a * 10 + (Z.of_N (CharClass.code c) - 48))%Z) l a)%Z.
Proof.
  induction l as [|c t IH]; intros a Hall Ha; [done|].
  inversion Hall as [|? ? Hc Ht]; subst. simpl.
  apply IH; [done|]. apply digit_code in Hc. lia.
Qed.

Lemma decimal_nonneg s : all_digits s -> (0 <= decimal (list_ascii_of_string s))%Z.
Proof. intros Hall. by apply decimal_from_nonneg. Qed.

Lemma integer_exact z : (Z.abs z <= max_exact)%Z -> integer z = Num z.
Proof.
  intros Hz. unfold integer. by destruct (Z.leb_spec (Z.abs z) max_exact); [|lia].
Qed.

(** Subtracting one from a number read from digits, in the exact range. *)
Lemma sub_one_exact z :
  (0 <= z <= max_exact)%Z -> sub (integer z) (Num 1) = Num (z - 1).
Proof.
  intros Hz. rewrite integer_exact by lia. cbn [sub].
  apply integer_exact. unfold max_exact in *. lia.
Qed.

(** At the edge of the exact range: 2^53 is read exactly, the integer
    above it is a value that the model does not track. *)
Example parseInt_exact_range :
  parseInt "9007199254740992" = Num 9007199254740992
  /\ sub (parseInt "9007199254740992") (Num 1) = Num 9007199254740991
  /\ parseInt "9007199254740993" = Inexact
  /\ sub (parseInt "9007199254740993") (Num 1) = Inexact.
Proof. repeat split; vm_compute; reflexivity. Qed.

(** ** Diagnostics *)

Lemma groups_of_Str t : groups_of (Str t) = [].
Proof. induction t as [|c t IH]; simpl; [done|by rewrite IH]. Qed.

(** In every match of a diagnostic pattern the four groups are defined,
    and the line and column groups are strings of digits. *)
Lemma diagnostic_pattern_groups tag s s' :
  den (diagnostic_pattern tag) s s' ->
  exists file line col message,
    caps s' !! 1 = Some file /\ caps s' !! 2 = Some line /\
    caps s' !! 3 = Some col /\ caps s' !! 4 = Some message /\
    all_digits line /\ all_digits col.
Proof.
  unfold diagnostic_pattern. cbn [Seqs]. intros Hden.
  destruct Hden as (s1 & _ & Hden). destruct Hden as (s2 & _ & Hden).
  destruct Hden as (s3 & H1 & Hden). destruct Hden as (s4 & H1' & Hden).
  destruct Hden as (s5 & H2 & Hden). destruct Hden as (s6 & H2' & Hden).
  destruct Hden as (s7 & H3 & Hden). destruct Hden as (s8 & H3' & Hden).
  destruct Hden as (s9 & H3'' & Hden). destruct Hden as (s10 & H4 & Hden).
  cbn [den] in Hden. subst s10.
  pose proof (den_group _ _ _ _ H1) as [G1 _].
  pose proof (den_group _ _ _ _ H2) as (G2 & t2 & D2 & P2 & _).
  pose proof (den_group _ _ _ _ H3) as (G3 & t3 & D3 & P3 & _).
  pose proof (den_group _ _ _ _ H4) as [G4 _].
  apply den_star_class in D2 as [A2 _]. apply den_star_class in D3 as [A3 _].
  assert (forall n a, n ∉ groups_of (Chr a)) as Hchr.
  { intros n a. simpl. apply not_elem_of_nil. }
  assert (forall n b, n ∉ groups_of (Str b)) as Hstr.
  { intros n b. rewrite groups_of_Str. apply not_elem_of_nil. }
  assert (forall n m a, n <> m -> n ∉ groups_of (Group m (Star (Chr a)))) as Hstar.
  { intros n m a Hne. simpl. by intros ->%list_elem_of_singleton. }
  assert (forall n a, n ∉ groups_of (Opt (Chr a))) as Hopt.
  { intros n a. simpl. apply not_elem_of_nil. }
  eexists _, _, _, _. split; [|split; [|split; [|split; [exact G4|]]]].
  - rewrite (den_frame _ _ _ 1 H4) by (by apply Hstar).
    rewrite (den_frame _ _ _ 1 H3'') by apply Hchr.
    rewrite (den_frame _ _ _ 1 H3') by apply Hopt.
    rewrite (den_frame _ _ _ 1 H3) by (by apply Hstar).
    rewrite (den_frame _ _ _ 1 H2') by apply Hchr.
    rewrite (den_frame _ _ _ 1 H2) by (by apply Hstar).
    rewrite (den_frame _ _ _ 1 H1') by apply Hstr.
    exact G1.
  - rewrite (den_frame _ _ _ 2 H4) by (by apply Hstar).
    rewrite (den_frame _ _ _ 2 H3'') by apply Hchr.
    rewrite (den_frame _ _ _ 2 H3') by apply Hopt.
    rewrite (den_frame _ _ _ 2 H3) by (by apply Hstar).
    rewrite (den_frame _ _ _ 2 H2') by apply Hchr.
    exact G2.
  - rewrite (den_frame _ _ _ 3 H4) by (by apply Hstar).
    rewrite (den_frame _ _ _ 3 H3'') by apply Hchr.
    rewrite (den_frame _ _ _ 3 H3') by apply Hopt.
    exact G3.
  - unfold all_digits, all_chars. rewrite !list_ascii_of_string_of_list_ascii.
    unfold consumed in *. rewrite P2, P3. done.
Qed.

Lemma diagnostic_match_groups tag text mt :
  mt ∈ exec_all (diagnostic_pattern tag) text ->
  exists file line col message,
    group mt 1 = Some file /\ group mt 2 = Some line /\
    group mt 3 = Some col /\ group mt 4 = Some message /\
    all_digits line /\ all_digits col.
Proof.
  intros Hin. apply exec_all_matches in Hin as [li Hexec].
  apply exec_is_match in Hexec as (_ & _ & _ & s' & Hden & _ & Hg).
  unfold group. rewrite Hg. by apply diagnostic_pattern_groups in Hden.
Qed.

Section DiagnosticFacts.

Context {TextDocument : Type}.
Variable offsetAt : TextDocument -> number -> number -> number.

Lemma push_until_throw_ret (f : rmatch -> ParseItem) ms acc :
  push_until_throw (fun mt => Ret (f mt)) ms acc = (acc ++ map f ms, None).
Proof.
  revert acc. induction ms as [|mt ms IH]; intros acc; simpl.
  - by rewrite app_nil_r.
  - rewrite IH. by rewrite <- app_assoc.
Qed.

Lemma push_until_throw_document doc ms acc :
  exists ws,
    push_until_throw (warning_item TextDocument offsetAt (Some doc)) ms acc
      = (acc ++ ws, None) /\
    Forall2 (fun mt w => warning_item TextDocument offsetAt (Some doc) mt = Ret w)
      ms ws.
Proof.
  revert acc. induction ms as [|mt ms IH]; intros acc; simpl.
  - exists []. by rewrite app_nil_r.
  - destruct (IH (acc ++
      [mkParseItem (group_str mt 1) (parseInt (group_str mt 2))
         (parseInt (if String.eqb (group_str mt 3) "" then "0" else group_str mt 3))
         (sub (offsetAt doc (parseInt (group_str mt 2)) (Num 0)) (Num 1))
         (group_str mt 4)])) as (ws & -> & Hws).
    eexists (_ :: ws). rewrite <- app_assoc. split; [done|].
    constructor; done.
Qed.

Lemma push_until_throw_no_document ms acc :
  push_until_throw (warning_item TextDocument offsetAt None) ms acc =
  (acc, match ms with [] => None | _ :: _ => Some TypeError end).
Proof. by destruct ms. Qed.

Lemma push_each_guarded_ret (f : rmatch -> ParseItem) ms :
  push_each_guarded (fun mt => Ret (f mt)) ms = (map f ms, []).
Proof. induction ms as [|mt ms IH]; simpl; [done|by rewrite IH]. Qed.

Lemma push_each_guarded_document doc ms acc ws :
  push_until_throw (warning_item TextDocument offsetAt (Some doc)) ms acc
    = (acc ++ ws, None) ->
  push_each_guarded (warning_item TextDocument offsetAt (Some doc)) ms = (ws, []).
Proof.
  revert acc ws. induction ms as [|mt ms IH]; intros acc ws; simpl.
  - intros [= Heq]. rewrite <- (app_nil_r acc) in Heq at 1.
    apply app_inv_head in Heq. by subst.
  - intros Hpush.
    destruct (push_until_throw_document doc ms
                (acc ++ [mkParseItem (group_str mt 1) (parseInt (group_str mt 2))
         (parseInt (if String.eqb (group_str mt 3) "" then "0" else group_str mt 3))
         (sub (offsetAt doc (parseInt (group_str mt 2)) (Num 0)) (Num 1))
         (group_str mt 4)])) as (ws' & Hpush' & _).
    rewrite (IH _ _ Hpush'). rewrite Hpush' in Hpush.
    injection Hpush as Heq. rewrite <- app_assoc in Heq.
    apply app_inv_head in Heq. by subst.
Qed.

Lemma push_each_guarded_no_document ms :
  push_each_guarded (warning_item TextDocument offsetAt None) ms =
  ([], map (fun _ => TypeError) ms).
Proof. induction ms as [|mt ms IH]; simpl; [done|by rewrite IH]. Qed.

End DiagnosticFacts.

Lemma parse_compile_output_errors {TextDocument : Type}
  (offsetAt : TextDocument -> number -> number -> number)
  (documents : gmap string TextDocument) (text uri : string) :
  errors (parse_compile_output TextDocument offsetAt documents text uri).1 =
  map error_item (exec_all errors_pattern text).
Proof.
  unfold parse_compile_output. rewrite push_until_throw_ret.
  by destruct (push_until_throw _ _ _).
Qed.

(** C6. Every error line matched by the error pattern yields one
    diagnostic; its start column is 0 and its end column is the parsed
    column minus 1, where the column group is a string of digits and an
    empty one counts as column 1.  The subtraction is the one of numbers:
    for a column of at most 2^53 the end column is the integer one below
    it.  The line [[Error] <Sem> <f>:10:: msg] yields start column 0 and
    end column 0. *)
Theorem error_columns {TextDocument : Type}
  (offsetAt : TextDocument -> number -> number -> number)
  (documents : gmap string TextDocument) (text uri : string) :
  errors (parse_compile_output TextDocument offsetAt documents text uri).1 =
    map error_item (exec_all errors_pattern text)
  /\ (forall mt,
        mt ∈ exec_all errors_pattern text ->
        exists col,
          group mt 3 = Some col /\ all_digits col /\
          column_start (error_item mt) = Num 0 /\
          column_end (error_item mt) =
            sub (integer (if decide (col = "") then 1
                          else decimal (list_ascii_of_string col)))
                (Num 1) /\
          ((if decide (col = "") then 1
            else decimal (list_ascii_of_string col)) <= max_exact ->
           column_end (error_item mt) =
             Num ((if decide (col = "") then 1
                   else decimal (list_ascii_of_string col)) - 1))%Z)
  /\ errors
       (parse_compile_output TextDocument offsetAt documents sample_error_line uri).1
     = [mkParseItem "Sem> <f" (Num 10) (Num 0) (Num 0) "msg"].
Proof.
  split; [apply parse_compile_output_errors|]. split.
  - intros mt Hin.
    apply diagnostic_match_groups in Hin
      as (file & line & col & message & _ & _ & G3 & _ & _ & Hcol).
    exists col. split; [done|]. split; [done|]. split; [done|].
    assert (column_end (error_item mt) =
            sub (integer (if decide (col = "") then 1
                          else decimal (list_ascii_of_string col)))
                (Num 1)) as Hend.
    { unfold error_item, group_str. cbn [column_end]. rewrite G3.
      cbn [default from_option id]. unfold id.
      destruct (decide (col = "")) as [->|Hne]; [reflexivity|].
      apply String.eqb_neq in Hne as Hneb. rewrite Hneb.
      by rewrite parseInt_digits. }
    split; [exact Hend|].
    intros Hle. rewrite Hend. apply sub_one_exact.
    split; [|exact Hle].
    destruct (decide (col = "")); [lia|]. by apply decimal_nonneg.
  - rewrite parse_compile_output_errors. vm_compute. reflexivity.
Qed.

Lemma error_columns_witness :
  column_start (error_item sample_error_match) = Num 0 /\
  column_end (error_item sample_error_match) = Num 0.
Proof.
  destruct (error_columns (fun (_ : unit) _ _ => Num 0) ∅ sample_error_line "a.ssl")
    as (_ & H & _).
  destruct (H sample_error_match) as (col & G3 & _ & Hstart & _ & Hend).
  - vm_compute. apply list_elem_of_singleton. reflexivity.
  - split; [exact Hstart|].
    assert (col = "") as -> by (vm_compute in G3; congruence).
    apply Hend. vm_compute. discriminate.
Defined.

(** ** Exceptions while parsing diagnostics *)

(** The document is not open, so that building a warning throws: the
    handler around both loops logs one error and the second matched line
    is never visited, where a handler per line would have visited and
    logged both. *)
Lemma parse_compile_output_stops_at_first_throw :
  parse_compile_output unit no_offset ∅ sample_two_warnings "a.ssl"
    = (mkParseResult [] [], [TypeError])
  /\ parse_compile_output_per_line unit no_offset ∅ sample_two_warnings "a.ssl"
    = (mkParseResult [] [], [TypeError; TypeError])
  /\ parse_compile_output unit no_offset ∅ sample_two_warnings "a.ssl"
     <> parse_compile_output_per_line unit no_offset ∅ sample_two_warnings "a.ssl".
Proof.
  assert (parse_compile_output unit no_offset ∅ sample_two_warnings "a.ssl"
          = (mkParseResult [] [], [TypeError])) as H1 by (vm_compute; reflexivity).
  assert (parse_compile_output_per_line unit no_offset ∅ sample_two_warnings "a.ssl"
          = (mkParseResult [] [], [TypeError; TypeError])) as H2
    by (vm_compute; reflexivity).
  split; [done|]. split; [done|]. rewrite H1, H2. discriminate.
Qed.

(** C4, amended. An exception while a matched line is processed is caught
    by the one handler around both loops and logged once, and parsing
    stops there.  The result is what was collected before: every matched
    error line, and the warnings built before the exception.  The
    exception comes from the missing document, which fails every warning
    line alike, so the diagnostics returned are those that a handler per
    line would have returned. *)
Theorem parse_compile_output_partial_results {TextDocument : Type}
  (offsetAt : TextDocument -> number -> number -> number)
  (documents : gmap string TextDocument) (text uri : string) :
  errors (parse_compile_output TextDocument offsetAt documents text uri).1 =
    map error_item (exec_all errors_pattern text)
  /\ (forall doc,
        documents !! uri = Some doc ->
        Forall2 (fun mt w => warning_item TextDocument offsetAt (Some doc) mt = Ret w)
          (exec_all warnings_pattern text)
          (warnings (parse_compile_output TextDocument offsetAt documents text uri).1)
        /\ (parse_compile_output TextDocument offsetAt documents text uri).2 = [])
  /\ (documents !! uri = None ->
        warnings (parse_compile_output TextDocument offsetAt documents text uri).1 = []
        /\ (parse_compile_output TextDocument offsetAt documents text uri).2 =
             match exec_all warnings_pattern text with
             | [] => []
             | _ :: _ => [TypeError]
             end)
  /\ (parse_compile_output TextDocument offsetAt documents text uri).1 =
     (parse_compile_output_per_line TextDocument offsetAt documents text uri).1.
Proof.
  split; [apply parse_compile_output_errors|].
  unfold parse_compile_output, parse_compile_output_per_line.
  rewrite push_until_throw_ret, push_each_guarded_ret. cbn [app].
  destruct (documents !! uri) as [doc|] eqn:Hdoc.
  - destruct (push_until_throw_document offsetAt doc
                (exec_all warnings_pattern text) []) as (ws & Hpush & Hws).
    rewrite (push_each_guarded_document offsetAt doc _ _ _ Hpush).
    rewrite Hpush. cbn [app fst snd warnings].
    split; [|split; [done|done]].
    intros doc' [= <-]. done.
  - rewrite push_until_throw_no_document, push_each_guarded_no_document.
    cbn [fst snd warnings].
    split; [done|]. split; [|done].
    intros _. split; [done|]. by destruct (exec_all warnings_pattern text).
Qed.

Lemma parse_compile_output_partial_results_witness :
  warnings (parse_compile_output unit no_offset ∅ sample_two_warnings "a.ssl").1 = []
  /\ (parse_compile_output unit no_offset ∅ sample_two_warnings "a.ssl").2 =
       match exec_all warnings_pattern sample_two_warnings with
       | [] => []
       | _ :: _ => [TypeError]
       end.
Proof.
  destruct (parse_compile_output_partial_results no_offset ∅ sample_two_warnings
              "a.ssl") as (_ & _ & H & _).
  apply H. reflexivity.
Defined.

(** ** Classification of macros *)

Lemma star_loop_total body gs k n s :
  (forall s', is_Some (k s')) -> is_Some (star_loop body gs k n s).
Proof.
  intros Hk. destruct n as [|n]; simpl; [apply Hk|].
  destruct (body _ _); simpl; [done|apply Hk].
Qed.

Lemma exec_from_Bol_later r input i :
  0 < i -> exec_from (Seq Bol r) i input = None.
Proof.
  revert i. induction input as [|c t IH]; intros i Hi; simpl;
    unfold match_at; cbn [run pos];
    (destruct (decide (i = 0)); [lia|]); [done|].
  apply IH. lia.
Qed.

Lemma match_at_constant_regex c l :
  (CharClass.upper_digit_underscore c = true ->
   is_Some (match_at constant_regex 0 (c :: l))) /\
  (CharClass.upper_digit_underscore c = false ->
   match_at constant_regex 0 (c :: l) = None).
Proof.
  unfold match_at, constant_regex. cbn [Seqs run Plus pos rest].
  destruct (decide (0 = 0)) as [_|]; [|done].
  split; intros ->; [|done].
  match goal with
  | |- context [star_loop ?b ?g ?k ?n ?s] =>
      destruct (star_loop_total b g k n s) as [s' ->]; [by eexists|]
  end.
  by eexists.
Qed.

(** [constant_regex] has no anchor at the end: it accepts every name
    whose first character is an uppercase letter, a digit or an
    underscore. *)
Lemma test_constant_regex name :
  test constant_regex name =
  match name with
  | EmptyString => false
  | String c _ => CharClass.upper_digit_underscore c
  end.
Proof.
  unfold test, exec.
  destruct (decide (0 <= String.length name)) as [_|]; [|lia].
  rewrite drop_0. destruct name as [|c name]; [done|].
  cbn [list_ascii_of_string exec_from].
  destruct (match_at_constant_regex c (list_ascii_of_string name)) as [Hyes Hno].
  destruct (CharClass.upper_digit_underscore c).
  - destruct Hyes as [mt ->]; [done|]. by apply bool_decide_eq_true_2.
  - rewrite Hno by done. unfold constant_regex. cbn [Seqs].
    rewrite exec_from_Bol_later by lia.
    apply bool_decide_eq_false_2. by intros [? ?].
Qed.

Lemma define_item_constant jsdoc_parse mt :
  def_constant (define_item jsdoc_parse mt) =
  negb (def_multiline (define_item jsdoc_parse mt)) &&
  match def_label (define_item jsdoc_parse mt) with
  | EmptyString => false
  | String c _ => CharClass.upper_digit_underscore c
  end.
Proof.
  unfold define_item. rewrite <- test_constant_regex.
  by destruct (truthy (group mt 2)).
Qed.

(** In every match of [define_regex] the name (group 5) and the value
    (group 7) are defined, and in every match of [proc_regex] the name is:
    [group_str] never falls back on its default there. *)
Lemma define_regex_groups s s' :
  den define_regex s s' -> is_Some (caps s' !! 5) /\ is_Some (caps s' !! 7).
Proof.
  unfold define_regex. cbn [Seqs]. intros Hden.
  destruct Hden as (s1 & _ & Hden). destruct Hden as (s2 & _ & Hden).
  destruct Hden as (s3 & _ & Hden). destruct Hden as (s4 & H5 & Hden).
  destruct Hden as (s5 & H6 & Hden). destruct Hden as (s6 & Hb & Hden).
  destruct Hden as (s7 & H7 & Hden). cbn [den] in Hden. subst s7.
  pose proof (den_group _ _ _ _ H5) as [G5 _].
  pose proof (den_group _ _ _ _ H7) as [G7 _].
  split; [|by eexists].
  rewrite (den_frame _ _ _ 5 H7)
    by (simpl; by intros [=]%list_elem_of_singleton).
  rewrite (den_frame _ _ _ 5 Hb) by (simpl; apply not_elem_of_nil).
  rewrite (den_frame _ _ _ 5 H6)
    by (simpl; by intros [=]%list_elem_of_singleton).
  by eexists.
Qed.

Lemma proc_regex_groups s s' :
  den proc_regex s s' -> is_Some (caps s' !! 5).
Proof.
  unfold proc_regex. cbn [Seqs]. intros Hden.
  destruct Hden as (s1 & _ & Hden). destruct Hden as (s2 & _ & Hden).
  destruct Hden as (s3 & _ & Hden). destruct Hden as (s4 & H5 & Hden).
  destruct Hden as (s5 & H6 & Hden). destruct Hden as (s6 & Hb & Hden).
  destruct Hden as (s7 & H7 & Hden). cbn [den] in Hden. subst s7.
  pose proof (den_group _ _ _ _ H5) as [G5 _].
  rewrite (den_frame _ _ _ 5 H7)
    by (rewrite groups_of_Str; apply not_elem_of_nil).
  rewrite (den_frame _ _ _ 5 Hb) by (simpl; apply not_elem_of_nil).
  rewrite (den_frame _ _ _ 5 H6)
    by (simpl; by intros [=]%list_elem_of_singleton).
  by eexists.
Qed.

Lemma find_symbols_names_defined jsdoc_parse text :
  Forall (fun mt => is_Some (group mt 5) /\ is_Some (group mt 7))
    (exec_all define_regex text)
  /\ Forall (fun mt => is_Some (group mt 5)) (exec_all proc_regex text)
  /\ macros (find_symbols jsdoc_parse text)
     = map (define_item jsdoc_parse) (exec_all define_regex text)
  /\ procedures (find_symbols jsdoc_parse text)
     = map (proc_item jsdoc_parse) (exec_all proc_regex text).
Proof.
  split; [|split; [|done]].
  - apply Forall_forall. intros mt Hin.
    apply exec_all_matches in Hin as [li Hexec].
    apply exec_is_match in Hexec as (_ & _ & _ & s' & Hden & _ & Hg).
    unfold group. rewrite Hg. by apply define_regex_groups in Hden.
  - apply Forall_forall. intros mt Hin.
    apply exec_all_matches in Hin as [li Hexec].
    apply exec_is_match in Hexec as (_ & _ & _ & s' & Hden & _ & Hg).
    unfold group. rewrite Hg. by apply proc_regex_groups in Hden.
Qed.

(** The extractor on the declarations of the specification's examples. *)
Example find_symbols_constant :
  find_symbols describe_only ("#define MAX_HP 100" +:+ nl) =
  mkHeaderData [mkDefine "MAX_HP" "MAX_HP" true false "100" None] [].
Proof. vm_compute. reflexivity. Qed.

Example find_symbols_procedure :
  find_symbols describe_only "procedure start begin end" =
  mkHeaderData [] [mkProc "start" "procedure start()" None].
Proof. vm_compute. reflexivity. Qed.

Example find_symbols_multiline_macro :
  macros (find_symbols describe_only
            ("#define ADD(a,b) (a + \" +:+ nl +:+ "   b)")) =
  [mkDefine "ADD" "ADD(a,b)" false true "(a + \" None].
Proof. vm_compute. reflexivity. Qed.

Example find_symbols_documented_procedure :
  map proc_label
    (procedures (find_symbols describe_only
       ("/**" +:+ nl +:+ " * Heals." +:+ nl +:+ " */" +:+ nl +:+
        "procedure heal(variable who) begin end"))) = ["heal"]
  /\ map proc_detail
    (procedures (find_symbols describe_only
       ("/**" +:+ nl +:+ " * Heals." +:+ nl +:+ " */" +:+ nl +:+
        "procedure heal(variable who) begin end"))) = ["void heal()"].
Proof. split; vm_compute; reflexivity. Qed.

(** C3. The macro [Foo] of the line [#define Foo 1] is classified as a
    constant although its name is not made of uppercase letters, digits
    and underscores only: [constant_regex] only looks at the start of the
    name. *)
Theorem find_symbols_mixed_case_constant :
  find_symbols describe_only "#define Foo 1" =
  mkHeaderData [mkDefine "Foo" "Foo" true false "1" None] [].
Proof. vm_compute. reflexivity. Qed.

(** ** Strings as lists of code units *)

Lemma list_ascii_of_string_app s1 s2 :
  list_ascii_of_string (s1 +:+ s2) = list_ascii_of_string s1 ++ list_ascii_of_string s2.
Proof. induction s1 as [|c s1 IH]; simpl; [done|by rewrite IH]. Qed.

Lemma string_of_list_ascii_app l1 l2 :
  string_of_list_ascii (l1 ++ l2) = string_of_list_ascii l1 +:+ string_of_list_ascii l2.
Proof. induction l1 as [|c l1 IH]; simpl; [done|by rewrite IH]. Qed.

Lemma list_ascii_of_substring n m s :
  list_ascii_of_string (String.substring n m s) =
  take m (drop n (list_ascii_of_string s)).
Proof.
  revert n m. induction s as [|c s IH]; intros n m.
  - destruct n, m; done.
  - destruct n as [|n]; simpl.
    + destruct m as [|m]; simpl; [done|]. by rewrite (IH 0 m), drop_0.
    + apply IH.
Qed.

Lemma list_ascii_of_slice s (a b : nat) :
  a <= b <= String.length s ->
  list_ascii_of_string (slice s (Z.of_nat a) (Some (Z.of_nat b))) =
  take (b - a) (drop a (list_ascii_of_string s)).
Proof.
  intros Hab. unfold slice, slice_index.
  destruct (Z.ltb_spec (Z.of_nat a) 0); [lia|].
  destruct (Z.ltb_spec (Z.of_nat b) 0); [lia|].
  rewrite !Nat2Z.id, !Nat.min_l by lia.
  apply list_ascii_of_substring.
Qed.

Lemma list_ascii_of_slice_end s (a : nat) :
  a <= String.length s ->
  list_ascii_of_string (slice s (Z.of_nat a) None) = drop a (list_ascii_of_string s).
Proof.
  intros Ha. unfold slice, slice_index.
  destruct (Z.ltb_spec (Z.of_nat a) 0); [lia|].
  rewrite Nat2Z.id, Nat.min_l by lia.
  rewrite list_ascii_of_substring. apply take_ge.
  rewrite length_drop, length_list_ascii_of_string. lia.
Qed.

Lemma string_eq_of_list s1 s2 :
  list_ascii_of_string s1 = list_ascii_of_string s2 -> s1 = s2.
Proof.
  intros H. rewrite <- (string_of_list_ascii_of_string s1),
    <- (string_of_list_ascii_of_string s2). by rewrite H.
Qed.

(** ** Searches of the position resolver *)

Lemma star_class_at_end p t :
  forall n i c,
    length t < n ->
    star_loop (run (Chr p)) [] at_end n (MState i t c) =
    if forallb p t then Some (MState (i + length t) [] c) else None.
Proof.
  induction t as [|x t IH]; intros n i c Hn; (destruct n as [|n]; [simpl in Hn; lia|]).
  - simpl. by rewrite Nat.add_0_r.
  - cbn [star_loop run clear rest pos caps foldr forallb].
    destruct (p x); cbn [andb orelse]; [|done].
    destruct (decide (S i = i)) as [|_]; [lia|].
    rewrite IH by (simpl in Hn; lia). cbn [length].
    replace (S i + length t) with (i + S (length t)) by lia.
    by destruct (forallb p t).
Qed.

Lemma run_Seq a b k s : run (Seq a b) k s = run a (run b k) s.
Proof. reflexivity. Qed.

Lemma run_Star a k s :
  run (Star a) k s = star_loop (run a) (groups_of a) k (S (length (rest s))) s.
Proof. reflexivity. Qed.

Lemma run_Chr_cons p k i x t c :
  run (Chr p) k (MState i (x :: t) c) =
  if p x then k (MState (S i) t c) else None.
Proof. reflexivity. Qed.

Lemma run_Eol_Eps : run (Seq Eol Eps) Some = at_end.
Proof. reflexivity. Qed.

Lemma match_at_tail p i l :
  match_at (Seqs [Plus (Chr p); Eol]) i l =
  match l with
  | [] => None
  | _ :: _ => if forallb p l then Some (RMatch i (i + length l) ∅) else None
  end.
Proof.
  unfold match_at. cbn [Seqs]. unfold Plus. rewrite !run_Seq.
  destruct l as [|x t]; [done|].
  rewrite run_Chr_cons. cbn [forallb].
  destruct (p x); cbn [andb]; [|done].
  rewrite run_Star, run_Eol_Eps. cbn [groups_of rest].
  rewrite star_class_at_end by lia.
  destruct (forallb p t); [|done]. cbn [pos caps length].
  do 2 f_equal. lia.
Qed.

Lemma exec_from_tail p l :
  forall i,
    exec_from (Seqs [Plus (Chr p); Eol]) i l =
    (fun k => RMatch (i + k) (i + length l) ∅) <$> tail_start p l.
Proof.
  induction l as [|x t IH]; intros i.
  - cbn [exec_from]. by rewrite match_at_tail.
  - cbn [exec_from tail_start]. rewrite match_at_tail.
    destruct (forallb p (x :: t)).
    + simpl. do 2 f_equal. lia.
    + rewrite IH. destruct (tail_start p t) as [k|]; [|done].
      simpl. do 2 f_equal; lia.
Qed.

Lemma search_tail p s :
  search (Seqs [Plus (Chr p); Eol]) s =
  match tail_start p (list_ascii_of_string s) with
  | Some k => Z.of_nat k
  | None => (-1)%Z
  end.
Proof.
  unfold search, exec.
  destruct (decide (0 <= String.length s)) as [_|]; [|lia].
  rewrite drop_0, exec_from_tail.
  by destruct (tail_start p (list_ascii_of_string s)).
Qed.

Lemma forallb_app_false (p : ascii -> bool) a c b :
  p c = false -> forallb p (a ++ c :: b) = false.
Proof.
  intros Hc. rewrite forallb_app. cbn [forallb]. rewrite Hc.
  by rewrite andb_false_r.
Qed.

Lemma tail_start_app p a b :
  b <> [] ->
  forallb p b = true ->
  match last a with Some c => p c = false | None => True end ->
  tail_start p (a ++ b) = Some (length a).
Proof.
  intros Hb Hall. induction a as [|x a IH]; intros Hlast.
  - destruct b as [|y b]; [done|]. cbn [app tail_start]. by rewrite Hall.
  - cbn [app tail_start length].
    assert (forallb p (x :: a ++ b) = false) as ->.
    { destruct (last (x :: a)) as [c|] eqn:Hl; [|by apply last_None in Hl].
      apply last_Some in Hl as [a' Ha']. rewrite app_comm_cons, Ha', <- app_assoc.
      by apply forallb_app_false. }
    rewrite IH; [done|].
    destruct a as [|y a]; [done|]. by rewrite last_cons_cons in Hlast.
Qed.

Lemma exec_from_Chr_found q a :
  forall i c b,
    Forall (fun x => q x = false) a ->
    q c = true ->
    exec_from (Chr q) i (a ++ c :: b) =
    Some (RMatch (i + length a) (S (i + length a)) ∅).
Proof.
  induction a as [|x a IH]; intros i c b Ha Hc.
  - cbn [app exec_from]. unfold match_at. rewrite run_Chr_cons, Hc.
    cbn [pos caps length]. by rewrite Nat.add_0_r.
  - inversion Ha as [|? ? Hx Ha']; subst.
    cbn [app exec_from]. unfold match_at at 1. rewrite run_Chr_cons, Hx.
    rewrite IH by done. cbn [length]. do 2 f_equal; lia.
Qed.

Lemma exec_from_Chr_none q l :
  forall i, Forall (fun x => q x = false) l -> exec_from (Chr q) i l = None.
Proof.
  induction l as [|x l IH]; intros i Hl; [done|].
  inversion Hl as [|? ? Hx Hl']; subst.
  cbn [exec_from]. unfold match_at at 1. rewrite run_Chr_cons, Hx. by apply IH.
Qed.

Lemma search_Chr_found q s a c b :
  list_ascii_of_string s = a ++ c :: b ->
  Forall (fun x => q x = false) a ->
  q c = true ->
  search (Chr q) s = Z.of_nat (length a).
Proof.
  intros Hs Ha Hc. unfold search, exec.
  destruct (decide (0 <= String.length s)) as [_|]; [|lia].
  by rewrite drop_0, Hs, exec_from_Chr_found.
Qed.

Lemma search_Chr_none q s :
  Forall (fun x => q x = false) (list_ascii_of_string s) ->
  search (Chr q) s = (-1)%Z.
Proof.
  intros Hs. unfold search, exec.
  destruct (decide (0 <= String.length s)) as [_|]; [|lia].
  by rewrite drop_0, exec_from_Chr_none.
Qed.

Lemma forallb_of_Forall (p : ascii -> bool) l :
  Forall (fun c => p c = true) l -> forallb p l = true.
Proof.
  induction 1 as [|x l Hx _ IH]; [done|]. cbn [forallb]. by rewrite Hx, IH.
Qed.

Lemma onlyDigits_digits s :
  all_digits s -> s <> "" -> onlyDigits s = true.
Proof.
  intros Hall Hne. unfold onlyDigits, test, exec.
  destruct (decide (0 <= String.length s)) as [_|]; [|lia].
  rewrite drop_0. unfold digits_only_regex.
  destruct (list_ascii_of_string s) as [|x t] eqn:Hl.
  { destruct s; [done|discriminate]. }
  cbn [exec_from].
  assert (match_at (Seqs [Bol; Plus (Chr CharClass.digit); Eol]) 0 (x :: t)
          = match_at (Seqs [Plus (Chr CharClass.digit); Eol]) 0 (x :: t)) as ->.
  { unfold match_at. change (Seqs (Bol :: ?r)) with (Seq Bol (Seqs r)).
    rewrite (run_Seq Bol). cbn [run pos].
    by destruct (decide (0 = 0)). }
  rewrite match_at_tail.
  unfold all_digits, all_chars in Hall. rewrite Hl in Hall.
  apply forallb_of_Forall in Hall. rewrite Hall.
  by apply bool_decide_eq_true_2.
Qed.

Lemma digit_word c : CharClass.digit c = true -> CharClass.word c = true.
Proof.
  intros H. unfold CharClass.word. rewrite H. by rewrite orb_true_r.
Qed.

Lemma space_not_word c : CharClass.space c = true -> CharClass.word c = false.
Proof.
  unfold CharClass.space, CharClass.word, CharClass.upper, CharClass.lower,
    CharClass.digit, CharClass.between.
  intros H.
  destruct (N.leb_spec 9 (CharClass.code c)), (N.leb_spec (CharClass.code c) 13),
    (N.eqb_spec (CharClass.code c) 32), (N.eqb_spec (CharClass.code c) 160);
    simpl in H; try done;
  destruct (N.leb_spec 65 (CharClass.code c)), (N.leb_spec (CharClass.code c) 90),
    (N.leb_spec 97 (CharClass.code c)), (N.leb_spec (CharClass.code c) 122),
    (N.leb_spec 48 (CharClass.code c)), (N.leb_spec (CharClass.code c) 57),
    (N.eqb_spec (CharClass.code c) 95); simpl; try done; lia.
Qed.

(** The left bound: searching, in the line cut after the cursor, for the
    run of code units of class [p] that ends the cut. *)
Lemma search_tail_slice p str pre mid post (n : nat) :
  list_ascii_of_string str = pre ++ mid ++ post ->
  Forall (fun c => p c = true) mid ->
  match last pre with Some c => p c = false | None => True end ->
  length pre <= n < length pre + length mid ->
  search (Seqs [Plus (Chr p); Eol]) (slice str 0 (Some (Z.of_nat n + 1)%Z)) =
  Z.of_nat (length pre).
Proof.
  intros Hstr Hmid Hlast [Hlo Hhi].
  assert (String.length str = length pre + length mid + length post) as Hlen.
  { rewrite <- length_list_ascii_of_string, Hstr, !length_app. lia. }
  rewrite search_tail.
  replace (Z.of_nat n + 1)%Z with (Z.of_nat (S n)) by lia.
  change 0%Z with (Z.of_nat 0). rewrite list_ascii_of_slice by lia.
  rewrite drop_0, Nat.sub_0_r, Hstr.
  rewrite take_app, (take_ge pre) by lia.
  rewrite take_app_le by lia.
  rewrite tail_start_app; [done| | |done].
  - destruct mid as [|x mid]; [simpl in Hhi; lia|].
    replace (S n - length pre) with (S (n - length pre)) by lia. done.
  - apply forallb_of_Forall. by apply Forall_take.
Qed.

(** The right bound: the first non-word code unit from the cursor on. *)
Lemma search_nonword_slice str pre mid post (n : nat) :
  list_ascii_of_string str = pre ++ mid ++ post ->
  Forall (fun c => CharClass.word c = true) mid ->
  match head post with Some c => CharClass.nonword c = true | None => True end ->
  length pre <= n < length pre + length mid ->
  search nonword_regex (slice str (Z.of_nat n) None) =
  match post with
  | [] => (-1)%Z
  | _ :: _ => Z.of_nat (length pre + length mid - n)
  end.
Proof.
  intros Hstr Hmid Hhead [Hlo Hhi].
  assert (String.length str = length pre + length mid + length post) as Hlen.
  { rewrite <- length_list_ascii_of_string, Hstr, !length_app. lia. }
  assert (list_ascii_of_string (slice str (Z.of_nat n) None) =
          drop (n - length pre) mid ++ post) as Hcut.
  { rewrite list_ascii_of_slice_end by lia. rewrite Hstr.
    rewrite drop_app, (drop_ge pre) by lia. cbn [app].
    by rewrite drop_app_le by lia. }
  assert (Forall (fun x => CharClass.nonword x = false) (drop (n - length pre) mid))
    as Hword.
  { apply Forall_drop. eapply Forall_impl; [exact Hmid|].
    intros c Hc. unfold CharClass.nonword. by rewrite Hc. }
  unfold nonword_regex. destruct post as [|c post].
  - apply search_Chr_none. rewrite Hcut, app_nil_r. done.
  - rewrite (search_Chr_found _ _ _ _ _ Hcut Hword Hhead).
    rewrite length_drop. f_equal. lia.
Qed.

(** The word between the bounds. *)
Lemma slice_to_end str pre suffix :
  list_ascii_of_string str = pre ++ suffix ->
  slice str (Z.of_nat (length pre)) None = string_of_list_ascii suffix.
Proof.
  intros Hstr. apply string_eq_of_list.
  rewrite list_ascii_of_string_of_list_ascii.
  rewrite list_ascii_of_slice_end.
  - by rewrite Hstr, drop_app_length.
  - rewrite <- length_list_ascii_of_string, Hstr, length_app. lia.
Qed.

Lemma slice_middle str pre mid post :
  list_ascii_of_string str = pre ++ mid ++ post ->
  slice str (Z.of_nat (length pre)) (Some (Z.of_nat (length pre + length mid))) =
  string_of_list_ascii mid.
Proof.
  intros Hstr. apply string_eq_of_list.
  rewrite list_ascii_of_string_of_list_ascii.
  rewrite list_ascii_of_slice.
  - rewrite Hstr, drop_app_length.
    replace (length pre + length mid - length pre) with (length mid) by lia.
    by rewrite take_app_length.
  - rewrite <- length_list_ascii_of_string, Hstr, !length_app. lia.
Qed.

(** With the cursor inside [154] the resolver answers [NOption(154], not
    the whole compound token: the second pass widens the left bound only. *)
Lemma symbolAtPosition_compound_reference :
  symbolAtPosition sample_reference_line (mkPosition 0 9) = Ret "NOption(154"
  /\ symbolAtPosition sample_reference_line (mkPosition 0 9)
     <> Ret sample_reference_line.
Proof.
  assert (symbolAtPosition sample_reference_line (mkPosition 0 9)
          = Ret "NOption(154") as H by (vm_compute; reflexivity).
  split; [done|]. rewrite H. discriminate.
Qed.

(** C2, amended. When the run of word characters under the cursor is a
    run of digits, the left bound is searched again with the
    non-white-space class while the right bound stays the first non-word
    character after the cursor: the answer is the non-white-space run up
    to the end of the digits.  Here the line is
    [before ++ token ++ digits ++ after], [token] is the non-white-space
    text that leads to the digits and the cursor is on one of the digits. *)
Theorem symbolAtPosition_numeric (text : string) (position : Position)
  (before token digits after : string) :
  split_lines text !! Common.line position
    = Some (before +:+ token +:+ digits +:+ after) ->
  match last_char before with Some c => CharClass.space c = true | None => True end ->
  all_chars CharClass.nonspace token ->
  match last_char token with Some c => CharClass.nonword c = true | None => True end ->
  digits <> "" ->
  all_digits digits ->
  match first_char after with Some c => CharClass.nonword c = true | None => True end ->
  String.length (before +:+ token) <= character position
    < String.length (before +:+ token +:+ digits) ->
  symbolAtPosition text position = Ret (token +:+ digits).
Proof.
  intros Hline Hbefore Htoken Htoken_last Hne Hdigits Hafter [Hlo Hhi].
  set (str := before +:+ token +:+ digits +:+ after) in *.
  set (B := list_ascii_of_string before) in *.
  set (T := list_ascii_of_string token) in *.
  set (D := list_ascii_of_string digits) in *.
  set (A := list_ascii_of_string after) in *.
  set (n := character position) in *.
  assert (list_ascii_of_string str = B ++ T ++ D ++ A) as Hstr.
  { unfold str. by rewrite !list_ascii_of_string_app. }
  assert (list_ascii_of_string str = (B ++ T) ++ D ++ A) as Hstr_word
    by (by rewrite Hstr, <- app_assoc).
  assert (list_ascii_of_string str = B ++ (T ++ D) ++ A) as Hstr_nonspace
    by (by rewrite Hstr, <- app_assoc).
  rewrite <- length_list_ascii_of_string, list_ascii_of_string_app in Hlo.
  rewrite <- length_list_ascii_of_string, !list_ascii_of_string_app in Hhi.
  fold B T D in Hlo, Hhi. rewrite length_app in Hlo. rewrite !length_app in Hhi.
  assert (D <> []) as HD.
  { unfold D. destruct digits; [done|discriminate]. }
  assert (Forall (fun c => CharClass.word c = true) D) as Hword.
  { eapply Forall_impl; [exact Hdigits|]. apply digit_word. }
  assert (match last (B ++ T) with
          | Some c => CharClass.word c = false
          | None => True
          end) as Hlast.
  { rewrite last_app. unfold last_char in *. fold B T in Hbefore, Htoken_last.
    destruct (last T) as [c|].
    - by apply negb_true_iff.
    - destruct (last B) as [c|]; [by apply space_not_word|done]. }
  assert (match last B with
          | Some c => CharClass.nonspace c = false
          | None => True
          end) as Hlast_space.
  { unfold last_char in Hbefore. fold B in Hbefore.
    destruct (last B) as [c|]; [|done].
    unfold CharClass.nonspace. by rewrite Hbefore. }
  assert (Forall (fun c => CharClass.nonspace c = true) (T ++ D)) as Hnonspace.
  { apply Forall_app. split; [exact Htoken|].
    eapply Forall_impl; [exact Hdigits|].
    intros c Hc. unfold CharClass.nonspace. by rewrite digit_not_space. }
  (* the two left bounds and the right bound *)
  assert (search word_tail_regex (slice str 0 (Some (Z.of_nat n + 1)%Z))
          = Z.of_nat (length (B ++ T))) as Hleft.
  { apply (search_tail_slice _ _ _ D A n Hstr_word Hword Hlast).
    rewrite length_app. lia. }
  assert (search nonspace_tail_regex (slice str 0 (Some (Z.of_nat n + 1)%Z))
          = Z.of_nat (length B)) as Hleft'.
  { apply (search_tail_slice _ _ _ (T ++ D) A n Hstr_nonspace Hnonspace Hlast_space).
    rewrite length_app. lia. }
  assert (search nonword_regex (slice str (Z.of_nat n) None)
          = match A with
            | [] => (-1)%Z
            | _ :: _ => Z.of_nat (length (B ++ T) + length D - n)
            end) as Hright.
  { apply (search_nonword_slice _ _ _ _ _ Hstr_word Hword Hafter).
    rewrite length_app. lia. }
  unfold symbolAtPosition. rewrite Hline. fold n. fold str.
  rewrite Hleft, Hleft', Hright.
  assert (digits = string_of_list_ascii D) as HdigitsD
    by (by unfold D; rewrite string_of_list_ascii_of_string).
  assert (token +:+ digits = string_of_list_ascii (T ++ D)) as Hanswer.
  { unfold T, D. by rewrite string_of_list_ascii_app,
      !string_of_list_ascii_of_string. }
  destruct A as [|a A'] eqn:HA.
  - cbn [Z.ltb Z.compare].
    rewrite app_nil_r in Hstr_word, Hstr_nonspace.
    rewrite (slice_to_end _ _ _ Hstr_word), <- HdigitsD.
    rewrite (onlyDigits_digits _ Hdigits Hne). cbn [negb].
    rewrite (slice_to_end _ _ _ Hstr_nonspace). by rewrite Hanswer.
  - pose proof (length_app B T) as HBT.
    destruct (Z.ltb_spec (Z.of_nat (length (B ++ T) + length D - n)) 0); [lia|].
    replace (Z.of_nat (length (B ++ T) + length D - n) + Z.of_nat n)%Z
      with (Z.of_nat (length (B ++ T) + length D)) by lia.
    rewrite (slice_middle _ _ _ _ Hstr_word), <- HdigitsD.
    rewrite (onlyDigits_digits _ Hdigits Hne). cbn [negb].
    replace (length (B ++ T) + length D) with (length B + length (T ++ D))
      by (rewrite !length_app; lia).
    rewrite (slice_middle _ _ _ _ Hstr_nonspace). by rewrite Hanswer.
Qed.

Lemma symbolAtPosition_numeric_witness :
  symbolAtPosition sample_reference_line (mkPosition 0 9) = Ret ("NOption(" +:+ "154").
Proof.
  apply (symbolAtPosition_numeric sample_reference_line (mkPosition 0 9)
           "" "NOption(" "154" ",Node003,004").
  - vm_compute. reflexivity.
  - exact I.
  - unfold all_chars. simpl. repeat constructor.
  - vm_compute. reflexivity.
  - discriminate.
  - unfold all_digits, all_chars. simpl. repeat constructor.
  - vm_compute. reflexivity.
  - simpl. lia.
Defined.

(** * Further properties *)

(** ** The loops over the matches of a global pattern *)



(** ** The names that the extractor emits *)

(** One or more code units of a class: what was consumed is not empty
    and lies in the class, and nothing is captured. *)
Lemma den_plus_class p s s' :
  den (Plus (Chr p)) s s' ->
  consumed s s' <> [] /\ Forall (fun c => p c = true) (consumed s s') /\
  caps s' = caps s.
Proof.
  unfold Plus. intros (s1 & Hchr & Hstar).
  pose proof (den_advances _ _ _ Hchr) as Hadv1.
  pose proof (den_advances _ _ _ Hstar) as Hadv2.
  apply den_star_class in Hstar as [Hall Hcaps].
  destruct Hchr as (c & t & Hrest & Hp & ->).
  rewrite (consumed_trans _ _ _ Hadv1 Hadv2).
  assert (consumed s (MState (S (pos s)) t (caps s)) = [c]) as ->.
  { unfold consumed. simpl. replace (S (pos s) - pos s) with 1 by lia.
    rewrite Hrest. simpl. by rewrite take_0. }
  split; [done|]. split; [|by rewrite Hcaps].
  constructor; done.
Qed.

Lemma string_of_list_ascii_nonempty l : l <> [] -> string_of_list_ascii l <> "".
Proof. by destruct l. Qed.

Lemma group_word_name n s s' :
  den (Group n (Plus (Chr CharClass.word))) s s' ->
  exists nm, caps s' !! n = Some nm /\ nm <> "" /\ all_chars CharClass.word nm.
Proof.
  intros Hden. pose proof (den_group _ _ _ _ Hden) as (G & s1 & Hplus & Hpos & _).
  apply den_plus_class in Hplus as (Hne & Hall & _).
  assert (consumed s s' = consumed s s1) as Heq by (unfold consumed; by rewrite Hpos).
  eexists. split; [exact G|]. rewrite Heq. split.
  - by apply string_of_list_ascii_nonempty.
  - unfold all_chars. by rewrite list_ascii_of_string_of_list_ascii.
Qed.

Lemma define_regex_name s s' :
  den define_regex s s' ->
  exists nm, caps s' !! 5 = Some nm /\ nm <> "" /\ all_chars CharClass.word nm.
Proof.
  unfold define_regex. cbn [Seqs]. intros Hden.
  destruct Hden as (s1 & _ & Hden). destruct Hden as (s2 & _ & Hden).
  destruct Hden as (s3 & _ & Hden). destruct Hden as (s4 & H5 & Hden).
  destruct Hden as (s5 & H6 & Hden). destruct Hden as (s6 & Hb & Hden).
  destruct Hden as (s7 & H7 & Hden). cbn [den] in Hden. subst s7.
  apply group_word_name in H5 as (nm & G5 & Hne & Hall).
  exists nm. split; [|done].
  rewrite (den_frame _ _ _ 5 H7)
    by (simpl; by intros [=]%list_elem_of_singleton).
  rewrite (den_frame _ _ _ 5 Hb) by (simpl; apply not_elem_of_nil).
  rewrite (den_frame _ _ _ 5 H6)
    by (simpl; by intros [=]%list_elem_of_singleton).
  exact G5.
Qed.

Lemma proc_regex_name s s' :
  den proc_regex s s' ->
  exists nm, caps s' !! 5 = Some nm /\ nm <> "" /\ all_chars CharClass.word nm.
Proof.
  unfold proc_regex. cbn [Seqs]. intros Hden.
  destruct Hden as (s1 & _ & Hden). destruct Hden as (s2 & _ & Hden).
  destruct Hden as (s3 & _ & Hden). destruct Hden as (s4 & H5 & Hden).
  destruct Hden as (s5 & H6 & Hden). destruct Hden as (s6 & Hb & Hden).
  destruct Hden as (s7 & H7 & Hden). cbn [den] in Hden. subst s7.
  apply group_word_name in H5 as (nm & G5 & Hne & Hall).
  exists nm. split; [|done].
  rewrite (den_frame _ _ _ 5 H7)
    by (rewrite groups_of_Str; apply not_elem_of_nil).
  rewrite (den_frame _ _ _ 5 Hb) by (simpl; apply not_elem_of_nil).
  rewrite (den_frame _ _ _ 5 H6)
    by (simpl; by intros [=]%list_elem_of_singleton).
  exact G5.
Qed.

Lemma define_item_label jsdoc_parse mt :
  def_label (define_item jsdoc_parse mt) = group_str mt 5.
Proof. unfold define_item. by destruct (truthy (group mt 2)). Qed.

Lemma proc_item_label jsdoc_parse mt :
  proc_label (proc_item jsdoc_parse mt) = group_str mt 5.
Proof. unfold proc_item. by destruct (truthy (group mt 2)). Qed.

(** X2. Every macro and every procedure that [find_symbols] emits has a
    name that is not empty and is made of word characters only, whatever
    the text and the doc-comment parser. *)
Theorem find_symbols_names_are_identifiers (jsdoc_parse : string -> Jsdoc.JSdoc)
  (text : string) :
  Forall (fun macro => def_label macro <> "" /\
                       all_chars CharClass.word (def_label macro))
    (macros (find_symbols jsdoc_parse text))
  /\ Forall (fun proc => proc_label proc <> "" /\
                         all_chars CharClass.word (proc_label proc))
       (procedures (find_symbols jsdoc_parse text)).
Proof.
  unfold find_symbols. cbn [macros procedures]. split.
  - apply Forall_fmap, Forall_forall. intros mt Hin. simpl.
    rewrite define_item_label.
    apply exec_all_matches in Hin as [li Hexec].
    apply exec_is_match in Hexec as (_ & _ & _ & s' & Hden & _ & Hg).
    apply define_regex_name in Hden as (nm & G5 & Hne & Hall).
    unfold group_str, group. rewrite Hg, G5. done.
  - apply Forall_fmap, Forall_forall. intros mt Hin. simpl.
    rewrite proc_item_label.
    apply exec_all_matches in Hin as [li Hexec].
    apply exec_is_match in Hexec as (_ & _ & _ & s' & Hden & _ & Hg).
    apply proc_regex_name in Hden as (nm & G5 & Hne & Hall).
    unfold group_str, group. rewrite Hg, G5. done.
Qed.

(** ** Loading headers and reloading one of them *)

Lemma loaded_completion_app jsdoc_parse hs1 hs2 :
  loaded_completion jsdoc_parse (hs1 ++ hs2) =
  loaded_completion jsdoc_parse hs1 ++ loaded_completion jsdoc_parse hs2.
Proof. unfold loaded_completion. by rewrite map_app, concat_app. Qed.

Lemma loaded_hover_app jsdoc_parse hs1 hs2 :
  loaded_hover jsdoc_parse (hs1 ++ hs2) =
  loaded_hover jsdoc_parse hs1 ++ loaded_hover jsdoc_parse hs2.
Proof. unfold loaded_hover. by rewrite map_app, concat_app. Qed.

Lemma set_all_empty_union (m : gmap string HoverEx) kvs :
  set_all m kvs = set_all ∅ kvs ∪ m.
Proof.
  rewrite !set_all_union. by rewrite (right_id_L ∅ (∪)).
Qed.

(** X3. Loading several lists of headers one after the other: the
    completion lists are appended in order, and in the hover map an entry
    of a later header replaces the entry that an earlier header has for
    the same name. *)
Theorem load_data_app (jsdoc_parse : string -> Jsdoc.JSdoc)
  (headers1 headers2 : list (string * string)) :
  completion (load_data jsdoc_parse (headers1 ++ headers2)) =
    completion (load_data jsdoc_parse headers1) ++
    completion (load_data jsdoc_parse headers2)
  /\ hover (load_data jsdoc_parse (headers1 ++ headers2)) =
       hover (load_data jsdoc_parse headers2) ∪
       hover (load_data jsdoc_parse headers1).
Proof.
  rewrite !load_data_spec. cbn [completion hover].
  split; [apply loaded_completion_app|].
  rewrite loaded_hover_app, set_all_app. apply set_all_empty_union.
Qed.

Lemma loaded_completion_sources jsdoc_parse headers :
  Forall (fun item => Completion.source item ∈ headers.*1)
    (loaded_completion jsdoc_parse headers).
Proof.
  apply Forall_forall. intros item Hin.
  apply loaded_completion_source in Hin as (text & Hin & _).
  apply list_elem_of_fmap. by exists (Completion.source item, text).
Qed.

Lemma loaded_hover_sources jsdoc_parse headers k v :
  set_all ∅ (loaded_hover jsdoc_parse headers) !! k = Some v ->
  Hover.source v ∈ headers.*1.
Proof.
  intros Hv. apply lookup_set_all_Some in Hv as [Hin|[_ Hv]].
  - apply (loaded_hover_source jsdoc_parse headers (k, v)) in Hin
      as (text & Hin & _).
    apply list_elem_of_fmap. by exists (Hover.source v, text).
  - by rewrite lookup_empty in Hv.
Qed.

(** X4. Reloading a file that is not among the loaded headers gives the
    same bucket as loading the headers with that file added at the end:
    for a new file the incremental update and the full scan agree.  In
    particular loading a single header is reloading it into an undefined
    bucket. *)
Theorem reload_data_new_file (jsdoc_parse : string -> Jsdoc.JSdoc)
  (headers : list (string * string)) (path text : string) :
  path ∉ headers.*1 ->
  reload_data jsdoc_parse path text
    (Some (completion (load_data jsdoc_parse headers)))
    (Some (hover (load_data jsdoc_parse headers)))
  = load_data jsdoc_parse (headers ++ [(path, text)])
  /\ reload_data jsdoc_parse path text None None
     = load_data jsdoc_parse [(path, text)].
Proof.
  intros Hnew. rewrite reload_data_spec, !load_data_spec.
  cbn [completion hover from_option]. unfold id. split.
  - f_equal.
    + rewrite loaded_completion_app. f_equal.
      * apply filter_all_true.
        eapply Forall_impl; [apply loaded_completion_sources|].
        intros item Hin Heq. simpl in Hin. by rewrite Heq in Hin.
      * unfold loaded_completion. simpl. by rewrite app_nil_r.
    + rewrite loaded_hover_app, set_all_app. f_equal.
      * apply map_filter_id. intros k v Hv Heq.
        apply loaded_hover_sources in Hv. simpl in Heq. by rewrite Heq in Hv.
      * unfold loaded_hover. simpl. by rewrite app_nil_r.
  - rewrite reload_data_spec. cbn [from_option].
    rewrite filter_nil, map_filter_empty. f_equal.
    + unfold loaded_completion. simpl. by rewrite app_nil_r.
    + unfold loaded_hover. simpl. by rewrite app_nil_r.
Qed.

Lemma reload_data_new_file_witness :
  reload_data describe_only "new.h" "#define NEW 1"
    (Some (completion (load_data describe_only sample_headers)))
    (Some (hover (load_data describe_only sample_headers)))
  = load_data describe_only (sample_headers ++ [("new.h", "#define NEW 1")]).
Proof.
  apply (reload_data_new_file describe_only sample_headers "new.h" "#define NEW 1").
  simpl. intros Hin.
  apply elem_of_cons in Hin as [Hin|Hin]; [discriminate|].
  apply elem_of_cons in Hin as [Hin|Hin]; [discriminate|].
  by apply elem_of_nil in Hin.
Defined.

(** ** definition.ts: the definition map *)

Lemma foldl_insert_union {A B : Type} (key : B -> string) (val : B -> A)
  (l : list B) (m : gmap string A) :
  foldl (fun m b => <[key b := val b]> m) m l =
  list_to_map (reverse (map (fun b => (key b, val b)) l)) ∪ m.
Proof.
  revert m. induction l as [|b l IH]; intros m.
  - simpl. by rewrite (left_id_L ∅ (∪)).
  - cbn [foldl map]. rewrite IH, reverse_cons, list_to_map_app. simpl.
    rewrite <- (assoc_L (∪)). f_equal.
    by rewrite insert_empty, <- insert_union_singleton_l.
Qed.

Lemma definition_load_union uri data :
  DefinitionTs.load uri data =
  list_to_map
    (reverse (map (fun def => (DefinitionTs.name def, DefinitionTs.to_location uri def))
                data)).
Proof.
  unfold DefinitionTs.load.
  rewrite (foldl_insert_union DefinitionTs.name (DefinitionTs.to_location uri)).
  by rewrite (right_id_L ∅ (∪)).
Qed.

(** X5. The definition map built by [load]: a name resolves to the
    location of its last item in the list, a name without an item is
    absent, and every location in the map carries the given uri and a
    range that starts and ends on the line of the item it was built
    from. *)
Theorem definition_load_lookup (uri : string)
  (data : list DefinitionTs.DefinitionItem) :
  (forall pre def post,
      data = pre ++ def :: post ->
      DefinitionTs.name def ∉ map DefinitionTs.name post ->
      DefinitionTs.load uri data !! DefinitionTs.name def =
        Some (DefinitionTs.to_location uri def))
  /\ (forall n, n ∉ map DefinitionTs.name data ->
                DefinitionTs.load uri data !! n = None)
  /\ (forall n loc,
        DefinitionTs.load uri data !! n = Some loc ->
        DefinitionTs.uri loc = uri /\
        exists def,
          def ∈ data /\ DefinitionTs.name def = n /\
          loc = DefinitionTs.to_location uri def /\
          DefinitionTs.loc_line (DefinitionTs.range_start (DefinitionTs.range loc))
            = DefinitionTs.line def /\
          DefinitionTs.loc_line (DefinitionTs.range_end (DefinitionTs.range loc))
            = DefinitionTs.line def).
Proof.
  rewrite definition_load_union. split; [|split].
  - intros pre def post -> Hlast.
    rewrite map_app, reverse_app. cbn [map]. rewrite reverse_cons.
    rewrite <- !app_assoc, list_to_map_app, lookup_union.
    rewrite (not_elem_of_list_to_map_1 (reverse _)).
    + rewrite (left_id_L None (∪)). simpl. by rewrite lookup_insert_eq.
    + rewrite fmap_reverse, elem_of_reverse.
      rewrite <- list_fmap_compose. exact Hlast.
  - intros n Hn. apply not_elem_of_list_to_map_1.
    rewrite fmap_reverse, elem_of_reverse, <- list_fmap_compose. exact Hn.
  - intros n loc Hloc. apply elem_of_list_to_map_2 in Hloc.
    rewrite elem_of_reverse in Hloc.
    apply list_elem_of_fmap in Hloc as (def & [= -> ->] & Hin).
    split; [done|]. exists def. done.
Qed.

Lemma definition_load_lookup_witness :
  DefinitionTs.load "file:///a.ssl" sample_definitions !! "start" =
  Some (DefinitionTs.to_location "file:///a.ssl"
          (DefinitionTs.mkDefinitionItem "start" (Num 12) (Num 10) (Num 15))).
Proof.
  destruct (definition_load_lookup "file:///a.ssl" sample_definitions) as (H & _ & _).
  apply (H [DefinitionTs.mkDefinitionItem "start" (Num 3) (Num 10) (Num 15);
            DefinitionTs.mkDefinitionItem "heal" (Num 7) (Num 10) (Num 14)]
           (DefinitionTs.mkDefinitionItem "start" (Num 12) (Num 10) (Num 15)) []).
  - reflexivity.
  - simpl. apply not_elem_of_nil.
Defined.

(** ** server.ts: the data language *)

(** X6. [getDataLang] is idempotent: the data language of a data
    language is itself.  A language id that the table does not know is
    mapped to [c++], which is not known either. *)
Theorem getDataLang_idempotent (lang_id : string) :
  ServerReload.getDataLang (ServerReload.getDataLang lang_id) =
  ServerReload.getDataLang lang_id
  /\ (ServerReload.lang_data_map !! lang_id = None ->
      ServerReload.getDataLang lang_id = "c++").
Proof.
  split.
  - unfold ServerReload.getDataLang at 2 3.
    destruct (ServerReload.lang_data_map !! lang_id) as [v|] eqn:E;
      [|vm_compute; reflexivity].
    apply elem_of_list_to_map_2 in E.
    repeat (apply elem_of_cons in E as [E|E];
            [injection E as -> ->; vm_compute; reflexivity|]).
    by apply elem_of_nil in E.
  - intros E. unfold ServerReload.getDataLang. by rewrite E.
Qed.

Lemma getDataLang_idempotent_witness : ServerReload.getDataLang "python" = "c++".
Proof.
  apply (proj2 (getDataLang_idempotent "python")). vm_compute. reflexivity.
Defined.

(** ** server.ts: reloading the data of a document *)

(** X7. [isHeader] compares the extension with [h], without the dot.  An
    [extname] that answers either nothing or an extension that starts
    with a dot, as the one of the runtime does, never makes it true. *)
Theorem isHeader_dotted_extension (extname : string -> string)
  (filePath langId : string) :
  (forall p, extname p = "" \/ exists ext, extname p = String "." ext) ->
  CommonDiagnostics.isHeader extname filePath langId = false.
Proof.
  intros Hext. unfold CommonDiagnostics.isHeader.
  destruct (Hext filePath) as [->|[ext ->]]; reflexivity.
Qed.

Lemma isHeader_dotted_extension_witness :
  CommonDiagnostics.isHeader sample_extname "headers/define.h" "fallout-ssl" = false.
Proof.
  apply isHeader_dotted_extension. intros p. right. by exists "h".
Defined.

Lemma reloadSelfData_self jsdoc_parse extname weidu_reloadData
  completionData hoverData relPath text :
  CommonDiagnostics.isHeader extname relPath "fallout-ssl" = false ->
  ServerReload.reloadSelfData jsdoc_parse extname weidu_reloadData
    completionData hoverData "fallout-ssl" relPath text =
  (Completion.mkData
     (<[relPath :=
          completion (reload_data jsdoc_parse relPath text
                        (Completion.selfData completionData !! relPath)
                        (Hover.selfData hoverData !! relPath))]>
        (Completion.selfData completionData))
     (Completion.staticData completionData)
     (Completion.dynamicData completionData),
   Hover.mkData
     (<[relPath :=
          hover (reload_data jsdoc_parse relPath text
                   (Completion.selfData completionData !! relPath)
                   (Hover.selfData hoverData !! relPath))]>
        (Hover.selfData hoverData))
     (Hover.staticData hoverData) (Hover.dynamicData hoverData)).
Proof.
  intros Hheader. unfold ServerReload.reloadSelfData.
  rewrite Hheader. reflexivity.
Qed.

(** X8. What [reloadSelfData] leaves alone: the static tiers in every
    case, and everything for a language other than [fallout-ssl] and
    [weidu-tp2].  For a [fallout-ssl] document that is not taken for a
    header the dynamic tiers and the self buckets of the other paths are
    unchanged, and the self bucket of the document is the reload of its
    previous one. *)
Theorem reloadSelfData_frame (jsdoc_parse : string -> Jsdoc.JSdoc)
  (extname : string -> string)
  (weidu_reloadData :
     string -> string -> option (list CompletionItemEx) ->
     option (gmap string HoverEx) -> DynamicData)
  (completionData : Completion.Data) (hoverData : Hover.Data)
  (langId relPath text : string) :
  let after :=
    ServerReload.reloadSelfData jsdoc_parse extname weidu_reloadData
      completionData hoverData langId relPath text in
  (Completion.staticData after.1 = Completion.staticData completionData
   /\ Hover.staticData after.2 = Hover.staticData hoverData)
  /\ (langId <> "fallout-ssl" -> langId <> "weidu-tp2" ->
      after = (completionData, hoverData))
  /\ (langId = "fallout-ssl" ->
      CommonDiagnostics.isHeader extname relPath langId = false ->
      Completion.dynamicData after.1 = Completion.dynamicData completionData
      /\ Hover.dynamicData after.2 = Hover.dynamicData hoverData
      /\ (forall other, other <> relPath ->
            Completion.selfData after.1 !! other =
              Completion.selfData completionData !! other
            /\ Hover.selfData after.2 !! other = Hover.selfData hoverData !! other)
      /\ Completion.selfData after.1 !! relPath =
           Some (completion (reload_data jsdoc_parse relPath text
                               (Completion.selfData completionData !! relPath)
                               (Hover.selfData hoverData !! relPath)))
      /\ Hover.selfData after.2 !! relPath =
           Some (hover (reload_data jsdoc_parse relPath text
                          (Completion.selfData completionData !! relPath)
                          (Hover.selfData hoverData !! relPath)))).
Proof.
  intros after. split; [|split].
  - subst after. unfold ServerReload.reloadSelfData.
    destruct (String.eqb langId "fallout-ssl");
      [destruct (CommonDiagnostics.isHeader extname relPath langId)|
       destruct (String.eqb langId "weidu-tp2")]; done.
  - intros H1 H2. subst after. unfold ServerReload.reloadSelfData.
    apply String.eqb_neq in H1, H2. by rewrite H1, H2.
  - intros -> Hheader. subst after.
    rewrite (reloadSelfData_self _ _ _ _ _ _ _ Hheader). cbn [fst snd
      Completion.selfData Completion.dynamicData Hover.selfData Hover.dynamicData].
    split; [done|]. split; [done|]. split.
    + intros other Hne. by rewrite !lookup_insert_ne.
    + by rewrite !lookup_insert_eq.
Qed.

Lemma reloadSelfData_frame_witness :
  Completion.selfData
    (ServerReload.reloadSelfData describe_only sample_extname
       sample_weidu_reloadData sample_completion_tiers sample_hover_data
       "fallout-ssl" "b.ssl" "procedure start begin end").1 !! "b.ssl"
  = Some (completion (reload_data describe_only "b.ssl" "procedure start begin end"
                        (Completion.selfData sample_completion_tiers !! "b.ssl")
                        (Hover.selfData sample_hover_data !! "b.ssl"))).
Proof.
  destruct (reloadSelfData_frame describe_only sample_extname
              sample_weidu_reloadData sample_completion_tiers sample_hover_data
              "fallout-ssl" "b.ssl" "procedure start begin end") as (_ & _ & H).
  destruct H as (_ & _ & _ & H & _); [reflexivity|reflexivity|exact H].
Defined.

Lemma labels_identifiers jsdoc_parse text :
  Forall (fun n => n <> "" /\ all_chars CharClass.word n)
    (labels (find_symbols jsdoc_parse text)).
Proof.
  unfold labels, find_symbols. cbn [macros procedures].
  apply Forall_app. split; rewrite map_map; apply Forall_fmap, Forall_forall;
    intros mt Hin; simpl.
  - rewrite define_item_label.
    apply exec_all_matches in Hin as [li Hexec].
    apply exec_is_match in Hexec as (_ & _ & _ & s' & Hden & _ & Hg).
    apply define_regex_name in Hden as (nm & G5 & Hne & Hall).
    unfold group_str, group. rewrite Hg, G5. done.
  - rewrite proc_item_label.
    apply exec_all_matches in Hin as [li Hexec].
    apply exec_is_match in Hexec as (_ & _ & _ & s' & Hden & _ & Hg).
    apply proc_regex_name in Hden as (nm & G5 & Hne & Hall).
    unfold group_str, group. rewrite Hg, G5. done.
Qed.

(** X9. After [reloadSelfData] of a [fallout-ssl] document that is not
    taken for a header, hovering in that document over a name that its
    text declares answers with the entry extracted from this text, tagged
    with the path of the document, whatever the static and dynamic tiers
    hold for the name (the name not being a translation reference). *)
Theorem reload_then_hover (jsdoc_parse : string -> Jsdoc.JSdoc)
  (extname : string -> string)
  (weidu_reloadData :
     string -> string -> option (list CompletionItemEx) ->
     option (gmap string HoverEx) -> DynamicData)
  (isTraRef : string -> string -> bool)
  (getTraHover : string -> string -> string -> string -> option PlainHover)
  (completionData : Completion.Data) (hoverData : Hover.Data)
  (relPath text : string) (position : Position) (word : string) :
  CommonDiagnostics.isHeader extname relPath "fallout-ssl" = false ->
  symbolAtPosition text position = Ret word ->
  word ∈ labels (find_symbols jsdoc_parse text) ->
  isTraRef word "fallout-ssl" = false ->
  exists h,
    onHover isTraRef getTraHover
      (ServerReload.reloadSelfData jsdoc_parse extname weidu_reloadData
         completionData hoverData "fallout-ssl" relPath text).2
      "fallout-ssl" relPath text position = Ret (Some (TierHover h))
    /\ Hover.source h = relPath
    /\ (word, h) ∈ fresh_hover relPath (find_symbols jsdoc_parse text).
Proof.
  intros Hheader Hsym Hword Htra.
  assert (word <> "") as Hne.
  { pose proof (labels_identifiers jsdoc_parse text) as Hall.
    rewrite Forall_forall in Hall. by apply Hall in Hword as [Hne _]. }
  rewrite (reloadSelfData_self _ _ _ _ _ _ _ Hheader). cbn [snd].
  rewrite (onHover_word _ _ _ _ _ _ _ _ Hsym Hne Htra).
  cbn [Hover.selfData Hover.staticData Hover.dynamicData].
  rewrite lookup_insert_eq, lookup_tiers_spec.
  rewrite reload_data_spec. cbn [hover]. unfold tier_get at 1. simpl.
  rewrite <- fresh_hover_keys with (path := relPath) in Hword.
  destruct (lookup_set_all_in
              (filter (fun kv => Hover.source kv.2 ≠ relPath)
                 (default ∅ (Hover.selfData hoverData !! relPath)))
              _ _ Hword) as (h & Hh & Hin).
  exists h. rewrite Hh. split; [done|]. split; [|done].
  pose proof (fresh_hover_source relPath (find_symbols jsdoc_parse text)) as Hall.
  rewrite Forall_forall in Hall. apply (Hall (word, h)). done.
Qed.

Lemma reload_then_hover_witness :
  exists h,
    onHover (fun _ _ => false) (fun _ _ _ _ => None)
      (ServerReload.reloadSelfData describe_only sample_extname
         sample_weidu_reloadData sample_completion_tiers sample_hover_data
         "fallout-ssl" "a.ssl" "#define FOO 1").2
      "fallout-ssl" "a.ssl" "#define FOO 1" (mkPosition 0 9)
    = Ret (Some (TierHover h))
    /\ Hover.source h = "a.ssl"
    /\ ("FOO", h) ∈ fresh_hover "a.ssl" (find_symbols describe_only "#define FOO 1").
Proof.
  apply reload_then_hover.
  - reflexivity.
  - vm_compute. reflexivity.
  - assert (labels (find_symbols describe_only "#define FOO 1") = ["FOO"]) as ->
      by (vm_compute; reflexivity).
    by apply list_elem_of_singleton.
  - reflexivity.
Defined.

(** ** The position resolver on its other inputs *)

Lemma onlyDigits_spec s :
  onlyDigits s =
  match list_ascii_of_string s with
  | [] => false
  | _ :: _ => forallb CharClass.digit (list_ascii_of_string s)
  end.
Proof.
  unfold onlyDigits, test, exec.
  destruct (decide (0 <= String.length s)) as [_|]; [|lia].
  rewrite drop_0. unfold digits_only_regex.
  change (Seqs [Bol; Plus (Chr CharClass.digit); Eol])
    with (Seq Bol (Seqs [Plus (Chr CharClass.digit); Eol])).
  assert (forall l, match_at (Seq Bol (Seqs [Plus (Chr CharClass.digit); Eol])) 0 l
                    = match_at (Seqs [Plus (Chr CharClass.digit); Eol]) 0 l) as Hat.
  { intros l. unfold match_at. rewrite (run_Seq Bol). cbn [run pos].
    by destruct (decide (0 = 0)). }
  destruct (list_ascii_of_string s) as [|x t].
  - cbn [exec_from]. rewrite Hat, match_at_tail.
    apply bool_decide_eq_false_2. by intros [? ?].
  - cbn [exec_from]. rewrite Hat, match_at_tail.
    destruct (forallb CharClass.digit (x :: t)).
    + by apply bool_decide_eq_true_2.
    + rewrite exec_from_Bol_later by lia.
      apply bool_decide_eq_false_2. by intros [? ?].
Qed.

Lemma Forall_of_forallb (p : ascii -> bool) l :
  forallb p l = true -> Forall (fun c => p c = true) l.
Proof.
  induction l as [|x l IH]; [constructor|]. cbn [forallb].
  intros [Hx Hl]%andb_true_iff. constructor; auto.
Qed.

(** X10. [onlyDigits] holds exactly of the strings that are not empty
    and consist of decimal digits. *)
Theorem onlyDigits_iff (value : string) :
  onlyDigits value = true <-> value <> "" /\ all_digits value.
Proof.
  rewrite onlyDigits_spec. unfold all_digits, all_chars. split.
  - destruct value as [|c value]; [done|]. cbn [list_ascii_of_string].
    intros H. split; [done|]. by apply Forall_of_forallb.
  - intros [Hne Hall]. destruct value as [|c value]; [done|].
    cbn [list_ascii_of_string] in *. by apply forallb_of_Forall.
Qed.

Lemma split_lines_from_nonempty cur l : split_lines_from cur l <> [].
Proof.
  revert cur. induction l as [|c t IH]; intros cur; [done|].
  cbn [split_lines_from]. destruct (CharClass.code c =? 10)%N; [done|].
  destruct t as [|c' t']; [apply IH|].
  destruct ((CharClass.code c =? 13) && (CharClass.code c' =? 10))%N; [done|].
  apply IH.
Qed.

(** X11. [symbolAtPosition] throws exactly when the text has no line
    with the number of the position, and then it throws a [TypeError];
    on every line that exists, the first one among them, it returns a
    string, wherever the cursor is. *)
Theorem symbolAtPosition_throws_iff (text : string) (position : Position) :
  (symbolAtPosition text position = Throw TypeError <->
   length (split_lines text) <= Common.line position)
  /\ ((exists word, symbolAtPosition text position = Ret word) <->
      Common.line position < length (split_lines text))
  /\ 0 < length (split_lines text).
Proof.
  assert (0 < length (split_lines text)) as Hpos.
  { unfold split_lines.
    pose proof (split_lines_from_nonempty [] (list_ascii_of_string text)) as Hne.
    destruct (split_lines_from [] (list_ascii_of_string text)); [done|simpl; lia]. }
  unfold symbolAtPosition.
  destruct (split_lines text !! Common.line position) as [str|] eqn:Hline.
  - apply lookup_lt_Some in Hline as Hlt.
    split; [|split; [|done]].
    + split; [|lia]. repeat case_match; discriminate.
    + split; [done|]. intros _. repeat case_match; eexists; reflexivity.
  - apply lookup_ge_None in Hline as Hge.
    split; [|split; [|done]].
    + done.
    + split; [intros [w Hw]; discriminate|lia].
Qed.

Lemma symbolAtPosition_throws_iff_witness :
  symbolAtPosition "procedure start begin end" (mkPosition 1 0) = Throw TypeError.
Proof.
  apply (proj1 (symbolAtPosition_throws_iff "procedure start begin end"
                  (mkPosition 1 0))).
  vm_compute. lia.
Defined.

(** X12. With the cursor on a character of an identifier, a run of word
    characters that are not all digits, [symbolAtPosition] returns
    exactly that identifier.  The line is [before ++ word ++ after], the
    word is bounded by non-word characters or by the ends of the line. *)
Theorem symbolAtPosition_identifier (text : string) (position : Position)
  (before word after : string) :
  split_lines text !! Common.line position = Some (before +:+ word +:+ after) ->
  match last_char before with Some c => CharClass.nonword c = true | None => True end ->
  all_chars CharClass.word word ->
  ~ all_digits word ->
  match first_char after with Some c => CharClass.nonword c = true | None => True end ->
  String.length before <= character position
    < String.length (before +:+ word) ->
  symbolAtPosition text position = Ret word.
Proof.
  intros Hline Hbefore Hword Hnd Hafter [Hlo Hhi].
  set (str := before +:+ word +:+ after) in *.
  set (B := list_ascii_of_string before) in *.
  set (W := list_ascii_of_string word) in *.
  set (A := list_ascii_of_string after) in *.
  set (n := character position) in *.
  assert (list_ascii_of_string str = B ++ W ++ A) as Hstr.
  { unfold str. by rewrite !list_ascii_of_string_app. }
  rewrite <- length_list_ascii_of_string in Hlo.
  rewrite <- length_list_ascii_of_string, list_ascii_of_string_app in Hhi.
  fold B W in Hlo, Hhi. rewrite length_app in Hhi.
  assert (match last B with
          | Some c => CharClass.word c = false
          | None => True
          end) as Hlast.
  { unfold last_char in Hbefore. fold B in Hbefore.
    destruct (last B) as [c|]; [|done]. by apply negb_true_iff. }
  assert (search word_tail_regex (slice str 0 (Some (Z.of_nat n + 1)%Z))
          = Z.of_nat (length B)) as Hleft.
  { apply (search_tail_slice _ _ _ W A n Hstr Hword Hlast). lia. }
  assert (search nonword_regex (slice str (Z.of_nat n) None)
          = match A with
            | [] => (-1)%Z
            | _ :: _ => Z.of_nat (length B + length W - n)
            end) as Hright.
  { apply (search_nonword_slice _ _ _ _ _ Hstr Hword Hafter). lia. }
  assert (word = string_of_list_ascii W) as HwordW
    by (by unfold W; rewrite string_of_list_ascii_of_string).
  assert (onlyDigits word = false) as Hdigits.
  { destruct (onlyDigits word) eqn:E; [|done].
    apply onlyDigits_iff in E as [_ E]. by destruct Hnd. }
  unfold symbolAtPosition. rewrite Hline. fold n. fold str.
  rewrite Hleft, Hright.
  destruct A as [|a A'] eqn:HA.
  - cbn [Z.ltb Z.compare]. rewrite app_nil_r in Hstr.
    rewrite (slice_to_end _ _ _ Hstr), <- HwordW. by rewrite Hdigits.
  - destruct (Z.ltb_spec (Z.of_nat (length B + length W - n)) 0); [lia|].
    replace (Z.of_nat (length B + length W - n) + Z.of_nat n)%Z
      with (Z.of_nat (length B + length W)) by lia.
    rewrite (slice_middle _ _ _ _ Hstr), <- HwordW. by rewrite Hdigits.
Qed.

Lemma symbolAtPosition_identifier_witness :
  symbolAtPosition "x := FOO;" (mkPosition 0 6) = Ret "FOO".
Proof.
  apply (symbolAtPosition_identifier "x := FOO;" (mkPosition 0 6) "x := " "FOO" ";").
  - vm_compute. reflexivity.
  - vm_compute. reflexivity.
  - unfold all_chars. simpl. repeat constructor.
  - unfold all_digits, all_chars. simpl. intros H.
    inversion H as [|? ? Hc _]. vm_compute in Hc. discriminate.
  - vm_compute. reflexivity.
  - simpl. lia.
Defined.

Lemma tail_start_none p l c :
  last l = Some c -> p c = false -> tail_start p l = None.
Proof.
  intros Hlast Hc. apply last_Some in Hlast as [l' ->].
  induction l' as [|x l' IH].
  - simpl. by rewrite Hc.
  - change ((x :: l') ++ [c]) with (x :: (l' ++ [c])).
    cbn [tail_start].
    assert (forallb p (x :: l' ++ [c]) = false) as ->.
    { rewrite app_comm_cons. by apply forallb_app_false. }
    by rewrite IH.
Qed.

Lemma substring_zero n s : String.substring n 0 s = "".
Proof.
  revert n. induction s as [|c s IH]; intros n; destruct n; simpl; auto.
Qed.

Lemma slice_from_last_char s (n : nat) :
  n < String.length s -> slice s (-1) (Some (Z.of_nat n)) = "".
Proof.
  intros Hn. unfold slice, slice_index. cbn [Z.ltb Z.compare].
  destruct (Z.ltb_spec (Z.of_nat n) 0); [lia|].
  rewrite Nat2Z.id, Nat.min_l by lia.
  replace (n - Z.to_nat (Z.max (Z.of_nat (String.length s) + -1) 0)) with 0 by lia.
  apply substring_zero.
Qed.

(** X13. With the cursor on a non-word character [symbolAtPosition]
    returns the empty string, whatever surrounds the character, and the
    hover handler then answers nothing. *)
Theorem symbolAtPosition_nonword (text : string) (position : Position)
  (before : string) (c : ascii) (after : string) :
  split_lines text !! Common.line position = Some (before +:+ String c after) ->
  CharClass.nonword c = true ->
  character position = String.length before ->
  symbolAtPosition text position = Ret ""
  /\ forall isTraRef getTraHover data langId relPath,
       onHover isTraRef getTraHover data langId relPath text position = Ret None.
Proof.
  intros Hline Hc Hpos.
  set (str := before +:+ String c after) in *.
  set (B := list_ascii_of_string before) in *.
  set (A := list_ascii_of_string after) in *.
  assert (list_ascii_of_string str = B ++ c :: A) as Hstr.
  { unfold str. by rewrite list_ascii_of_string_app. }
  assert (String.length str = length B + S (length A)) as Hlen.
  { rewrite <- length_list_ascii_of_string, Hstr, length_app. done. }
  assert (character position = length B) as Hn.
  { rewrite Hpos. unfold B. by rewrite length_list_ascii_of_string. }
  assert (symbolAtPosition text position = Ret "") as Hsym.
  { unfold symbolAtPosition. rewrite Hline, Hn. fold str.
    assert (search word_tail_regex (slice str 0 (Some (Z.of_nat (length B) + 1)%Z))
            = (-1)%Z) as ->.
    { unfold word_tail_regex. rewrite search_tail.
      replace (Z.of_nat (length B) + 1)%Z with (Z.of_nat (S (length B))) by lia.
      change 0%Z with (Z.of_nat 0). rewrite list_ascii_of_slice by lia.
      rewrite drop_0, Nat.sub_0_r, Hstr.
      replace (B ++ c :: A) with ((B ++ [c]) ++ A) by (by rewrite <- app_assoc).
      rewrite take_app_length' by (rewrite length_app; simpl; lia).
      rewrite (tail_start_none _ _ c); [done|apply last_snoc|].
      by apply negb_true_iff. }
    assert (search nonword_regex (slice str (Z.of_nat (length B)) None) = 0%Z) as ->.
    { unfold nonword_regex.
      apply (search_Chr_found _ _ [] c A); [|constructor|done].
      rewrite list_ascii_of_slice_end by lia. by rewrite Hstr, drop_app_length. }
    cbn [Z.ltb Z.compare]. rewrite Z.add_0_l.
    rewrite slice_from_last_char by lia.
    reflexivity. }
  split; [exact Hsym|].
  intros isTraRef getTraHover data langId relPath. unfold onHover.
  rewrite Hsym. by case_bool_decide.
Qed.

Lemma symbolAtPosition_nonword_witness :
  symbolAtPosition "x := FOO;" (mkPosition 0 2) = Ret "".
Proof.
  apply (proj1 (symbolAtPosition_nonword "x := FOO;" (mkPosition 0 2)
                  "x " ":" "= FOO;" ltac:(vm_compute; reflexivity)
                  ltac:(vm_compute; reflexivity) ltac:(reflexivity))).
Defined.

(** ** Early exits of the hover handler *)



(** ** The completion listing *)



(** ** The diagnostics sent to the client *)




(** ** External headers *)

(** X17. [load_external_headers] leaves both data sets as they are when
    the headers directory is not a directory, cannot be examined, or lies
    inside the workspace.  Otherwise it succeeds exactly when the static
    tier of completion and of hover both have the fallout-ssl bucket, and
    then: the self and dynamic tiers and the static buckets of the other
    languages are unchanged; the completion bucket is the old list
    followed by the entries of the headers; the hover bucket answers a
    name with the entry of the headers when they declare it and with the
    old entry otherwise. *)
Theorem load_external_headers_effect (jsdoc_parse : string -> Jsdoc.JSdoc)
  (is_directory is_subpath : outcome bool) (headers : list (string * string))
  (completionData : Completion.Data) (hoverData : Hover.Data) :
  (is_directory <> Ret true ->
   FalloutExternal.load_external_headers jsdoc_parse is_directory is_subpath
     headers completionData hoverData = Ret (completionData, hoverData))
  /\ (is_directory = Ret true -> is_subpath = Ret true ->
      FalloutExternal.load_external_headers jsdoc_parse is_directory is_subpath
        headers completionData hoverData = Ret (completionData, hoverData))
  /\ (is_directory = Ret true -> is_subpath = Ret false ->
      ((exists result,
          FalloutExternal.load_external_headers jsdoc_parse is_directory
            is_subpath headers completionData hoverData = Ret result) <->
       is_Some (Completion.staticData completionData !! lang_id) /\
       is_Some (Hover.staticData hoverData !! lang_id))
      /\ (forall completionData' hoverData',
            FalloutExternal.load_external_headers jsdoc_parse is_directory
              is_subpath headers completionData hoverData
              = Ret (completionData', hoverData') ->
            Completion.selfData completionData' = Completion.selfData completionData /\
            Completion.dynamicData completionData' = Completion.dynamicData completionData /\
            Hover.selfData hoverData' = Hover.selfData hoverData /\
            Hover.dynamicData hoverData' = Hover.dynamicData hoverData /\
            (forall lang, lang <> lang_id ->
               Completion.staticData completionData' !! lang
                 = Completion.staticData completionData !! lang /\
               Hover.staticData hoverData' !! lang
                 = Hover.staticData hoverData !! lang) /\
            exists old_completion old_hover new_hover,
              Completion.staticData completionData !! lang_id = Some old_completion /\
              Hover.staticData hoverData !! lang_id = Some old_hover /\
              Completion.staticData completionData' !! lang_id
                = Some (old_completion ++ completion (load_data jsdoc_parse headers)) /\
              Hover.staticData hoverData' !! lang_id = Some new_hover /\
              forall name,
                new_hover !! name =
                  match hover (load_data jsdoc_parse headers) !! name with
                  | Some entry => Some entry
                  | None => old_hover !! name
                  end)).
Proof.
  split; [|split].
  - intros Hskip. unfold FalloutExternal.load_external_headers.
    by destruct is_directory as [[|]|e].
  - by intros -> ->.
  - intros -> ->. unfold FalloutExternal.load_external_headers.
    destruct (Completion.staticData completionData !! lang_id)
      as [old_completion|] eqn:Hc;
      [destruct (Hover.staticData hoverData !! lang_id) as [old_hover|] eqn:Hh|].
    + split.
      * split; [intros _; split; by eexists|intros _; by eexists].
      * intros c' h' [= <- <-]. cbn.
        repeat (split; [done|]).
        split.
        { intros lang Hne. by rewrite !lookup_insert_ne. }
        exists old_completion, old_hover,
          (hover (load_data jsdoc_parse headers) ∪ old_hover).
        rewrite !lookup_insert_eq. repeat (split; [done|]).
        intros name.
        destruct (hover (load_data jsdoc_parse headers) !! name) as [entry|] eqn:He.
        -- by apply lookup_union_Some_l.
        -- by rewrite lookup_union_r.
    + split.
      * split; [intros [? ?]; discriminate|intros [_ [? ?]]; discriminate].
      * intros ? ? ?; discriminate.
    + split.
      * split; [intros [? ?]; discriminate|intros [[? ?] _]; discriminate].
      * intros ? ? ?; discriminate.
Qed.


Lemma load_external_headers_effect_witness :
  exists result,
    FalloutExternal.load_external_headers describe_only (Ret true) (Ret false)
      sample_headers sample_completion_tiers sample_hover_data = Ret result.
Proof.
  apply (proj2 (proj1 (proj2 (proj2
           (load_external_headers_effect describe_only (Ret true) (Ret false)
              sample_headers sample_completion_tiers sample_hover_data))
           eq_refl eq_refl))).
  split; vm_compute; eexists; reflexivity.
Defined.


(** ** The fields of a compiler diagnostic *)

(** In every match of a diagnostic pattern the file is not empty, and
    neither the file nor the message holds a line terminator. *)
Lemma diagnostic_pattern_text tag s s' :
  den (diagnostic_pattern tag) s s' ->
  exists file message,
    caps s' !! 1 = Some file /\ caps s' !! 4 = Some message /\
    file <> "" /\ all_chars CharClass.dot file /\ all_chars CharClass.dot message.
Proof.
  unfold diagnostic_pattern. cbn [Seqs]. intros Hden.
  destruct Hden as (s1 & _ & Hden). destruct Hden as (s2 & _ & Hden).
  destruct Hden as (s3 & H1 & Hden). destruct Hden as (s4 & H1' & Hden).
  destruct Hden as (s5 & H2 & Hden). destruct Hden as (s6 & H2' & Hden).
  destruct Hden as (s7 & H3 & Hden). destruct Hden as (s8 & H3' & Hden).
  destruct Hden as (s9 & H3'' & Hden). destruct Hden as (s10 & H4 & Hden).
  cbn [den] in Hden. subst s10.
  pose proof (den_group _ _ _ _ H1) as (G1 & t1 & D1 & P1 & _).
  pose proof (den_group _ _ _ _ H4) as (G4 & t4 & D4 & P4 & _).
  apply den_plus_class in D1 as (N1 & A1 & _). apply den_star_class in D4 as [A4 _].
  assert (forall n a, n ∉ groups_of (Chr a)) as Hchr.
  { intros n a. simpl. apply not_elem_of_nil. }
  assert (forall n b, n ∉ groups_of (Str b)) as Hstr.
  { intros n b. rewrite groups_of_Str. apply not_elem_of_nil. }
  assert (forall n m a, n <> m -> n ∉ groups_of (Group m (Star (Chr a)))) as Hstar.
  { intros n m a Hne. simpl. by intros ->%list_elem_of_singleton. }
  assert (forall n a, n ∉ groups_of (Opt (Chr a))) as Hopt.
  { intros n a. simpl. apply not_elem_of_nil. }
  eexists _, _. split; [|split; [exact G4|]].
  - rewrite (den_frame _ _ _ 1 H4) by (by apply Hstar).
    rewrite (den_frame _ _ _ 1 H3'') by apply Hchr.
    rewrite (den_frame _ _ _ 1 H3') by apply Hopt.
    rewrite (den_frame _ _ _ 1 H3) by (by apply Hstar).
    rewrite (den_frame _ _ _ 1 H2') by apply Hchr.
    rewrite (den_frame _ _ _ 1 H2) by (by apply Hstar).
    rewrite (den_frame _ _ _ 1 H1') by apply Hstr.
    exact G1.
  - unfold all_chars. rewrite !list_ascii_of_string_of_list_ascii.
    unfold consumed in *. rewrite P1, P4. split; [|done].
    intros Hempty. apply N1.
    apply (f_equal list_ascii_of_string) in Hempty.
    by rewrite list_ascii_of_string_of_list_ascii in Hempty.
Qed.

Lemma diagnostic_match_text tag text mt :
  mt ∈ exec_all (diagnostic_pattern tag) text ->
  exists file message,
    group mt 1 = Some file /\ group mt 4 = Some message /\
    file <> "" /\ all_chars CharClass.dot file /\ all_chars CharClass.dot message.
Proof.
  intros Hin. apply exec_all_matches in Hin as [li Hexec].
  apply exec_is_match in Hexec as (_ & _ & _ & s' & Hden & _ & Hg).
  unfold group. rewrite Hg. by apply diagnostic_pattern_text in Hden.
Qed.

(** X18. Every error that [parse_compile_output] reads off the compiler
    output names a file that is not empty; its file and its message hold
    no line terminator; its line is the number written between the file
    and the column, and NaN when no digit is written there. *)
Theorem error_item_fields (text : string) (mt : rmatch) :
  mt ∈ exec_all errors_pattern text ->
  file (error_item mt) <> "" /\
  all_chars CharClass.dot (file (error_item mt)) /\
  all_chars CharClass.dot (message (error_item mt)) /\
  exists digits,
    group mt 2 = Some digits /\ all_digits digits /\
    FalloutSSL.line (error_item mt) =
      if decide (digits = "") then NaN
      else integer (decimal (list_ascii_of_string digits)).
Proof.
  intros Hin.
  destruct (diagnostic_match_text _ _ _ Hin) as (f & m & G1 & G4 & Hne & Hf & Hm).
  destruct (diagnostic_match_groups _ _ _ Hin)
    as (f' & l & c & m' & _ & G2 & _ & _ & Hl & _).
  unfold error_item, group_str. cbn [file message FalloutSSL.line].
  rewrite G1, G2, G4. cbn [default].
  repeat (split; [done|]).
  exists l. split; [done|]. split; [done|].
  destruct (decide (l = "")) as [->|Hnel]; [reflexivity|].
  by apply parseInt_digits.
Qed.

Lemma error_item_fields_witness :
  file (error_item sample_error_match) <> "" /\
  all_chars CharClass.dot (file (error_item sample_error_match)) /\
  all_chars CharClass.dot (message (error_item sample_error_match)) /\
  exists digits,
    group sample_error_match 2 = Some digits /\ all_digits digits /\
    FalloutSSL.line (error_item sample_error_match) =
      if decide (digits = "") then NaN
      else integer (decimal (list_ascii_of_string digits)).
Proof.
  apply (error_item_fields sample_error_line sample_error_match).
  vm_compute. apply list_elem_of_singleton. reflexivity.
Defined.
